(** * SpeechTranslator: the native bridge layer

    A shallow embedding of [whisper_bridge.cpp] and [llama_bridge.cpp]: the
    two translation units that own the ASR handle and the language-model
    handle/context pair, and drive the streaming decode loop.

    The numerical engines (whisper.cpp, llama.cpp) are external.  They are
    modelled as an _engine_: a record of functions over a hidden engine state
    [Ω] that decide what every native call answers.  Everything is proved for
    an arbitrary engine.  The bridge's own bookkeeping is modelled in full:
    the file-level statics, the set of native objects that were allocated and
    not yet released, and the chronological list of native calls, log lines
    and callback invocations a bridge call performs. *)

From Stdlib Require Import ZArith List String Ascii Bool Lia.
From stdpp Require Import base decidable sets gmap.
Import ListNotations.
Open Scope Z_scope.

(** ** Native pointers and C integers *)

(** A non-null native pointer.  A nullable pointer is a [ptr]. *)
Definition handle := positive.
Abbreviation ptr := (option handle).

Definition INT_MIN : Z := - 2 ^ 31.

(** [(int)x] for an unsigned [x], and [(uint32_t)x] for an [int x]. *)
Definition to_int32 (z : Z) : Z := (z + 2 ^ 31) mod 2 ^ 32 - 2 ^ 31.
Definition to_uint32 (z : Z) : Z := z mod 2 ^ 32.

(** ** Bridge calls: state, result and trace *)

Section Monad.
Context {S E : Type}.

(** A bridge call reads and updates the statics and the engine, returns a
    value, and leaves a chronological trace of what it did. *)
Definition M (A : Type) : Type := S → A * S * list E.

Definition value {A} (r : A * S * list E) : A := fst (fst r).
Definition final {A} (r : A * S * list E) : S := snd (fst r).
Definition trace {A} (r : A * S * list E) : list E := snd r.

Definition ret {A} (a : A) : M A := λ s, (a, s, []).

Definition bind {A B} (m : M A) (k : A → M B) : M B :=
  λ s, let '(a, s1, t1) := m s in
       let '(b, s2, t2) := k a s1 in
       (b, s2, t1 ++ t2).

Definition gets {A} (f : S → A) : M A := λ s, (f s, s, []).
Definition modify (f : S → S) : M unit := λ s, (tt, f s, []).
Definition emit (e : E) : M unit := λ s, (tt, s, [e]).
End Monad.

Arguments M : clear implicits.

Notation "'let*' x ':=' c 'in' k" := (bind c (λ x, k))
  (at level 10, x name, c at level 100, k at level 200).
Notation "'let*' ' p ':=' c 'in' k" := (bind c (λ x, match x with p => k end))
  (at level 10, p strict pattern, c at level 100, k at level 200).
Notation "c ';;' k" := (bind c (λ _, k))
  (at level 100, k at level 200, right associativity).

(** * whisper_bridge.cpp *)

Module Whisper.

(** The fields of [whisper_full_params] the bridge sets. *)
Inductive sampling_strategy := WHISPER_SAMPLING_GREEDY | WHISPER_SAMPLING_BEAM_SEARCH.

Record whisper_full_params := {
  strategy : sampling_strategy;
  language : string;
  translate : bool;
  no_context : bool;
  single_segment : bool;
  print_realtime : bool;
  print_progress : bool;
  print_timestamps : bool;
  suppress_blank : bool;
  n_threads : Z;
  audio_ctx : Z
}.

(** What whisper.cpp answers.  [Pcm] is the sample buffer, opaque to the
    bridge.  Loading answers whether a context was produced; the bridge
    model gives it its address. *)
Record engine (Ω Pcm : Type) := {
  eng_init_from_file : string → bool → Ω → bool * Ω;
  eng_full : handle → whisper_full_params → Pcm → Z → Ω → Z * Ω;
  eng_n_segments : Ω → handle → Z;
  eng_segment_text : Ω → handle → Z → option string;
  eng_free : handle → Ω → Ω
}.
Arguments eng_init_from_file {Ω Pcm}.
Arguments eng_full {Ω Pcm}.
Arguments eng_n_segments {Ω Pcm}.
Arguments eng_segment_text {Ω Pcm}.
Arguments eng_free {Ω Pcm}.

(** The statics of the translation unit, and the native heap they point to. *)
Record state (Ω : Type) := {
  g_ctx : ptr;
  g_threads : Z;
  live : gset handle;   (* whisper contexts allocated and not yet freed *)
  next : handle;        (* the address the next allocation gets *)
  fault : bool;         (* a dead context was used or freed *)
  eng : Ω
}.
Arguments g_ctx {Ω}.
Arguments g_threads {Ω}.
Arguments live {Ω}.
Arguments next {Ω}.
Arguments fault {Ω}.
Arguments eng {Ω}.

Inductive event :=
| EFree (h : handle)
| EInit (path : string) (use_gpu : bool) (r : ptr)
| EFull (h : handle) (wp : whisper_full_params) (n_samples status : Z)
| ELogE (msg : string)
| ELogI (msg : string).

Definition initial {Ω} (ω : Ω) : state Ω :=
  {| g_ctx := None; g_threads := 4; live := ∅; next := 1%positive;
     fault := false; eng := ω |}.

Section Bridge.
Context {Ω Pcm : Type} (W : engine Ω Pcm).

Abbreviation st := (state Ω).
Abbreviation M := (M st event).

Definition set_g_ctx (p : ptr) : M unit :=
  modify (λ s, {| g_ctx := p; g_threads := g_threads s; live := live s;
                  next := next s; fault := fault s; eng := eng s |}).

Definition set_g_threads (n : Z) : M unit :=
  modify (λ s, {| g_ctx := g_ctx s; g_threads := n; live := live s;
                  next := next s; fault := fault s; eng := eng s |}).

(** Using a context that is not live is a fault. *)
Definition touch (h : handle) (s : st) : bool :=
  fault s || negb (bool_decide (h ∈ live s)).

(** *** The native calls *)

Definition whisper_free (h : handle) : M unit :=
  modify (λ s, {| g_ctx := g_ctx s; g_threads := g_threads s;
                  live := live s ∖ {[h]}; next := next s;
                  fault := touch h s; eng := eng_free W h (eng s) |}) ;;
  emit (EFree h).

Definition whisper_init_from_file_with_params
    (path : string) (use_gpu : bool) : M ptr :=
  let* ok := gets (λ s, fst (eng_init_from_file W path use_gpu (eng s))) in
  let* h := gets next in
  let r := if ok : bool then Some h else None in
  modify (λ s, {| g_ctx := g_ctx s; g_threads := g_threads s;
                  live := if ok then {[h]} ∪ live s else live s;
                  next := if ok then Pos.succ h else h;
                  fault := fault s;
                  eng := snd (eng_init_from_file W path use_gpu (eng s)) |}) ;;
  emit (EInit path use_gpu r) ;;
  ret r.

Definition whisper_full (h : handle) (wp : whisper_full_params)
    (pcm : Pcm) (n_samples : Z) : M Z :=
  let* status := gets (λ s, fst (eng_full W h wp pcm n_samples (eng s))) in
  modify (λ s, {| g_ctx := g_ctx s; g_threads := g_threads s;
                  live := live s; next := next s;
                  fault := touch h s;
                  eng := snd (eng_full W h wp pcm n_samples (eng s)) |}) ;;
  emit (EFull h wp n_samples status) ;;
  ret status.

Definition whisper_full_n_segments (h : handle) : M Z :=
  gets (λ s, eng_n_segments W (eng s) h).

Definition whisper_full_get_segment_text (h : handle) (i : Z)
    : M (option string) :=
  gets (λ s, eng_segment_text W (eng s) h i).

Definition LOGE (msg : string) : M unit := emit (ELogE msg).
Definition LOGI (msg : string) : M unit := emit (ELogI msg).

(** *** whisper_bridge_init *)

Definition whisper_bridge_init (model_path : string) (n_threads : Z)
    : M bool :=
  let* c := gets g_ctx in
  match c with
  | Some h => whisper_free h ;; set_g_ctx None
  | None => ret tt
  end ;;
  set_g_threads n_threads ;;
  let cp_use_gpu := false in
  let* r := whisper_init_from_file_with_params model_path cp_use_gpu in
  set_g_ctx r ;;
  match r with
  | None => LOGE ("Failed to load: " ++ model_path) ;; ret false
  | Some _ =>
      LOGI ("Whisper model loaded OK from " ++ model_path) ;; ret true
  end.

(** *** whisper_bridge_transcribe *)

(** [for (int i = 0; i < n; ++i) { seg = ...(g_ctx, i); if (seg) out += seg; }] *)
Fixpoint concat_segments (h : handle) (i : Z) (count : nat) (out : string)
    : M string :=
  match count with
  | O => ret out
  | Datatypes.S k =>
      let* seg := whisper_full_get_segment_text h i in
      let out :=
        match seg with Some t => (out ++ t)%string | None => out end in
      concat_segments h (i + 1) k out
  end.

(** [if (!out.empty() && out[0] == ' ') out = out.substr(1);] *)
Definition strip_leading_space (out : string) : string :=
  if negb (String.length out =? 0)%nat
     && match String.get 0 out with
        | Some c => Ascii.eqb c " "
        | None => false
        end
  then String.substring 1 (String.length out - 1) out
  else out.

(** The parameters of lines 35-46: the greedy defaults with these fields set. *)
Definition full_params (lang : string) (threads : Z) : whisper_full_params :=
  {| strategy := WHISPER_SAMPLING_GREEDY;
     language := lang;
     translate := false;
     no_context := false;
     single_segment := true;
     print_realtime := true;
     print_progress := false;
     print_timestamps := false;
     suppress_blank := true;
     n_threads := threads;
     audio_ctx := 0 |}.

Definition whisper_bridge_transcribe (pcm : Pcm) (n_samples : Z)
    (lang : string) : M string :=
  let* c := gets g_ctx in
  match c with
  | None => ret EmptyString
  | Some h =>
      let* threads := gets g_threads in
      let wp := full_params lang threads in
      let* status := whisper_full h wp pcm n_samples in
      if negb (status =? 0) then
        LOGE "whisper_full() failed" ;; ret EmptyString
      else
        let* n := whisper_full_n_segments h in
        let* out := concat_segments h 0 (Z.to_nat n) EmptyString in
        ret (strip_leading_space out)
  end.

(** *** whisper_bridge_free *)

Definition whisper_bridge_free : M unit :=
  let* c := gets g_ctx in
  match c with
  | Some h => whisper_free h ;; set_g_ctx None
  | None => ret tt
  end.

(** *** The three entry points, as pipeline_jni.cpp exposes them *)

Inductive call :=
| nativeWhisperInit (path : string) (threads : Z)
| nativeWhisperTranscribe (pcm : Pcm) (n_samples : Z) (lang : string)
| nativeWhisperFree.

Inductive reply :=
| Loaded (ok : bool)
| Text (t : string)
| Freed.

Definition perform (c : call) : M reply :=
  match c with
  | nativeWhisperInit path threads =>
      let* ok := whisper_bridge_init path threads in ret (Loaded ok)
  | nativeWhisperTranscribe pcm n_samples lang =>
      let* t := whisper_bridge_transcribe pcm n_samples lang in ret (Text t)
  | nativeWhisperFree => whisper_bridge_free ;; ret Freed
  end.

Fixpoint perform_all (cs : list call) : M (list reply) :=
  match cs with
  | [] => ret []
  | c :: cs =>
      let* r := perform c in
      let* rs := perform_all cs in
      ret (r :: rs)
  end.

(** Every transcription answered before the first successful init is empty. *)
Fixpoint silent_until_loaded (rs : list reply) : bool :=
  match rs with
  | [] => true
  | Loaded true :: _ => true
  | Text t :: rs => String.eqb t EmptyString && silent_until_loaded rs
  | _ :: rs => silent_until_loaded rs
  end.

(** The transcript the engine holds for [h]: its non-null segment texts, in
    order, joined. *)
Definition segment_texts (ω : Ω) (h : handle) : list string :=
  omap (λ i, eng_segment_text W ω h (Z.of_nat i))
       (seq 0 (Z.to_nat (eng_n_segments W ω h))).

Definition transcript (ω : Ω) (h : handle) : string :=
  fold_right String.append EmptyString (segment_texts ω h).

(** The state a transcription pass leaves: only the engine moved, and a dead
    handle was noticed. *)
Definition after_full (h : handle) (wp : whisper_full_params) (pcm : Pcm)
    (n_samples : Z) (s : st) : st :=
  {| g_ctx := g_ctx s; g_threads := g_threads s; live := live s;
     next := next s; fault := touch h s;
     eng := snd (eng_full W h wp pcm n_samples (eng s)) |}.

(** The state [whisper_free h] leaves, with the static cleared. *)
Definition released (h : handle) (s : st) : st :=
  {| g_ctx := None; g_threads := g_threads s; live := live s ∖ {[h]};
     next := next s; fault := touch h s; eng := eng_free W h (eng s) |}.

(** The state and the trace a load leaves when the static was null. *)
Definition loaded (path : string) (threads : Z) (s : st) : st :=
  let ok := fst (eng_init_from_file W path false (eng s)) in
  {| g_ctx := if ok then Some (next s) else None;
     g_threads := threads;
     live := if ok then {[next s]} ∪ live s else live s;
     next := if ok then Pos.succ (next s) else next s;
     fault := fault s;
     eng := snd (eng_init_from_file W path false (eng s)) |}.

Definition load_trace (path : string) (s : st) : list event :=
  if fst (eng_init_from_file W path false (eng s))
  then [EInit path false (Some (next s));
        ELogI ("Whisper model loaded OK from " ++ path)]
  else [EInit path false None; ELogE ("Failed to load: " ++ path)].

(** The static points to a live context, or is null. *)
Definition ptr_live (s : st) : bool :=
  match g_ctx s with
  | Some h => bool_decide (h ∈ live s)
  | None => true
  end.

(** Addresses are handed out in increasing order. *)
Definition next_fresh (s : st) : bool :=
  bool_decide (set_Forall (λ h, (h < next s)%positive) (live s)).

(** The only live context, if any, is the one the static points to. *)
Definition sole_owner (s : st) : Prop :=
  live s = match g_ctx s with Some h => {[h]} | None => ∅ end.

End Bridge.

Arguments nativeWhisperFree {Pcm}.
Arguments nativeWhisperInit {Pcm}.

(** A small engine to run the bridge on: one model file loads, an empty
    buffer fails to decode, and the transcript has three segments, the
    second of them null. *)
Definition mock : engine unit (list Z) :=
  {| eng_init_from_file := λ path _ ω, (String.eqb path "ggml-base.bin", ω);
     eng_full := λ _ _ _ n_samples ω, (if 0 <? n_samples then 0 else -1, ω);
     eng_n_segments := λ _ _, 3;
     eng_segment_text := λ _ _ i,
       if i =? 0 then Some " hello"%string
       else if i =? 1 then None
       else Some " world"%string;
     eng_free := λ _ ω, ω |}.

(** An engine that hears nothing: every pass succeeds and reports no
    segment. *)
Definition silent : engine unit (list Z) :=
  {| eng_init_from_file := λ _ _ ω, (true, ω);
     eng_full := λ _ _ _ _ ω, (0, ω);
     eng_n_segments := λ _ _, 0;
     eng_segment_text := λ _ _ _, None;
     eng_free := λ _ ω, ω |}.

End Whisper.

(** * llama_bridge.cpp *)

Module Llama.

Definition llama_token := Z.

(** The fields of [llama_context_params] the bridge sets. *)
Record llama_context_params := {
  n_ctx : Z;
  n_threads : Z;
  n_threads_batch : Z
}.

(** The three stages the bridge puts in the sampler chain.  The two float
    arguments are kept in hundredths: [top_p(0.90f, 1)], [temp(0.60f)]. *)
Inductive sampler_stage :=
| llama_sampler_init_top_p (p_hundredths : Z) (min_keep : Z)
| llama_sampler_init_temp (t_hundredths : Z)
| llama_sampler_init_dist_default_seed.

(** What llama.cpp answers.  Calls that take the state last may change it;
    calls that take it first only read it (their C arguments are [const]).
    Tokenizing answers the count and the buffer as the call left it;
    rendering a token answers the length and the 256-byte buffer. *)
Record engine (Ω : Type) := {
  eng_model_load : string → Z → Ω → bool * Ω;
  eng_init_from_model : handle → llama_context_params → Ω → bool * Ω;
  eng_memory_clear : handle → bool → Ω → Ω;
  eng_tokenize : Ω → handle → string → Z → list llama_token → Z →
                 bool → bool → Z * list llama_token;
  eng_decode : handle → list llama_token → Ω → Z * Ω;
  eng_sampler_chain_init : Ω → Ω;
  eng_sampler_chain_add : handle → sampler_stage → Ω → Ω;
  eng_sampler_sample : handle → handle → Z → Ω → llama_token * Ω;
  eng_vocab_is_eog : Ω → handle → llama_token → bool;
  eng_token_to_piece : Ω → handle → llama_token → Z → Z → bool → Z * string;
  eng_sampler_free : handle → Ω → Ω;
  eng_free : handle → Ω → Ω;
  eng_model_free : handle → Ω → Ω
}.
Arguments eng_model_load {Ω}.
Arguments eng_init_from_model {Ω}.
Arguments eng_memory_clear {Ω}.
Arguments eng_tokenize {Ω}.
Arguments eng_decode {Ω}.
Arguments eng_sampler_chain_init {Ω}.
Arguments eng_sampler_chain_add {Ω}.
Arguments eng_sampler_sample {Ω}.
Arguments eng_vocab_is_eog {Ω}.
Arguments eng_token_to_piece {Ω}.
Arguments eng_sampler_free {Ω}.
Arguments eng_free {Ω}.
Arguments eng_model_free {Ω}.

(** The statics of the translation unit, and the native heap they point to. *)
Record state (Ω : Type) := {
  g_model : ptr;
  g_ctx : ptr;
  g_threads : Z;
  models : gset handle;     (* models loaded and not yet freed *)
  ctxs : gset handle;       (* contexts created and not yet freed *)
  samplers : gset handle;   (* sampler chains created and not yet freed *)
  next : handle;            (* the address the next allocation gets *)
  fault : bool;             (* a dead object was used or freed, or the call aborted *)
  eng : Ω
}.
Arguments g_model {Ω}.
Arguments g_ctx {Ω}.
Arguments g_threads {Ω}.
Arguments models {Ω}.
Arguments ctxs {Ω}.
Arguments samplers {Ω}.
Arguments next {Ω}.
Arguments fault {Ω}.
Arguments eng {Ω}.

Inductive event :=
| EModelLoad (path : string) (n_gpu_layers : Z) (r : ptr)
| EModelFree (m : handle)
| EInitFromModel (m : handle) (cp : llama_context_params) (r : ptr)
| EFree (c : handle)
| EMemoryClear (c : handle) (data : bool)
| ETokenize (text : string) (text_len capacity : Z)
            (add_special parse_special : bool) (n : Z)
| EDecode (c : handle) (batch : list llama_token) (status : Z)
| ESamplerChainInit (s : handle)
| ESamplerChainAdd (s : handle) (stage : sampler_stage)
| ESamplerSample (s c : handle) (idx : Z) (tok : llama_token)
| EVocabIsEog (tok : llama_token) (eog : bool)
| ETokenToPiece (tok : llama_token) (len : Z)
| ESamplerFree (s : handle)
| EOnToken (fragment : string)
| ELogE (msg : string)
| ELogI (msg : string).

Definition initial {Ω} (ω : Ω) : state Ω :=
  {| g_model := None; g_ctx := None; g_threads := 4;
     models := ∅; ctxs := ∅; samplers := ∅; next := 1%positive;
     fault := false; eng := ω |}.

Section Bridge.
Context {Ω : Type} (L : engine Ω).

Abbreviation st := (state Ω).
Abbreviation M := (M st event).

(** *** Field updates *)

Definition with_g_model (p : ptr) (s : st) : st :=
  {| g_model := p; g_ctx := g_ctx s; g_threads := g_threads s;
     models := models s; ctxs := ctxs s; samplers := samplers s;
     next := next s; fault := fault s; eng := eng s |}.

Definition with_g_ctx (p : ptr) (s : st) : st :=
  {| g_model := g_model s; g_ctx := p; g_threads := g_threads s;
     models := models s; ctxs := ctxs s; samplers := samplers s;
     next := next s; fault := fault s; eng := eng s |}.

Definition with_g_threads (n : Z) (s : st) : st :=
  {| g_model := g_model s; g_ctx := g_ctx s; g_threads := n;
     models := models s; ctxs := ctxs s; samplers := samplers s;
     next := next s; fault := fault s; eng := eng s |}.

Definition with_models (x : gset handle) (s : st) : st :=
  {| g_model := g_model s; g_ctx := g_ctx s; g_threads := g_threads s;
     models := x; ctxs := ctxs s; samplers := samplers s;
     next := next s; fault := fault s; eng := eng s |}.

Definition with_ctxs (x : gset handle) (s : st) : st :=
  {| g_model := g_model s; g_ctx := g_ctx s; g_threads := g_threads s;
     models := models s; ctxs := x; samplers := samplers s;
     next := next s; fault := fault s; eng := eng s |}.

Definition with_samplers (x : gset handle) (s : st) : st :=
  {| g_model := g_model s; g_ctx := g_ctx s; g_threads := g_threads s;
     models := models s; ctxs := ctxs s; samplers := x;
     next := next s; fault := fault s; eng := eng s |}.

Definition with_next (h : handle) (s : st) : st :=
  {| g_model := g_model s; g_ctx := g_ctx s; g_threads := g_threads s;
     models := models s; ctxs := ctxs s; samplers := samplers s;
     next := h; fault := fault s; eng := eng s |}.

Definition with_fault (b : bool) (s : st) : st :=
  {| g_model := g_model s; g_ctx := g_ctx s; g_threads := g_threads s;
     models := models s; ctxs := ctxs s; samplers := samplers s;
     next := next s; fault := b; eng := eng s |}.

Definition with_eng (ω : Ω) (s : st) : st :=
  {| g_model := g_model s; g_ctx := g_ctx s; g_threads := g_threads s;
     models := models s; ctxs := ctxs s; samplers := samplers s;
     next := next s; fault := fault s; eng := ω |}.

(** Using an object that is not live is a fault. *)
Definition touch (x : gset handle) (h : handle) (s : st) : st :=
  with_fault (fault s || negb (bool_decide (h ∈ x))) s.

(** *** The native calls *)

Definition llama_model_load_from_file (path : string) (n_gpu_layers : Z)
    : M ptr :=
  let* ok := gets (λ s, fst (eng_model_load L path n_gpu_layers (eng s))) in
  let* h := gets next in
  let r := if ok : bool then Some h else None in
  modify (λ s, with_eng (snd (eng_model_load L path n_gpu_layers (eng s)))
                 (if ok then with_next (Pos.succ h)
                               (with_models ({[h]} ∪ models s) s)
                  else s)) ;;
  emit (EModelLoad path n_gpu_layers r) ;;
  ret r.

(** Freeing a null pointer does nothing. *)
Definition llama_model_free (p : ptr) : M unit :=
  match p with
  | None => ret tt
  | Some m =>
      modify (λ s, with_eng (eng_model_free L m (eng s))
                     (with_models (models s ∖ {[m]}) (touch (models s) m s))) ;;
      emit (EModelFree m)
  end.

Definition llama_init_from_model (m : handle) (cp : llama_context_params)
    : M ptr :=
  let* ok := gets (λ s, fst (eng_init_from_model L m cp (eng s))) in
  let* h := gets next in
  let r := if ok : bool then Some h else None in
  modify (λ s, with_eng (snd (eng_init_from_model L m cp (eng s)))
                 (if ok then with_next (Pos.succ h)
                               (with_ctxs ({[h]} ∪ ctxs s)
                                  (touch (models s) m s))
                  else touch (models s) m s)) ;;
  emit (EInitFromModel m cp r) ;;
  ret r.

Definition llama_free (c : handle) : M unit :=
  modify (λ s, with_eng (eng_free L c (eng s))
                 (with_ctxs (ctxs s ∖ {[c]}) (touch (ctxs s) c s))) ;;
  emit (EFree c).

(** The memory of a context and the vocabulary of a model live and die with
    them. *)
Definition llama_get_memory (c : handle) : handle := c.
Definition llama_model_get_vocab (m : handle) : handle := m.

Definition llama_memory_clear (mem : handle) (data : bool) : M unit :=
  modify (λ s, with_eng (eng_memory_clear L mem data (eng s))
                 (touch (ctxs s) mem s)) ;;
  emit (EMemoryClear mem data).

Definition llama_tokenize (vocab : handle) (text : string) (text_len : Z)
    (tokens : list llama_token) (n_tokens_max : Z)
    (add_special parse_special : bool) : M (Z * list llama_token) :=
  let* r := gets (λ s, eng_tokenize L (eng s) vocab text text_len tokens
                         n_tokens_max add_special parse_special) in
  modify (λ s, touch (models s) vocab s) ;;
  emit (ETokenize text text_len n_tokens_max add_special parse_special
          (fst r)) ;;
  ret r.

Definition llama_batch_get_one (tokens : list llama_token) (n_tokens : Z)
    : list llama_token :=
  firstn (Z.to_nat n_tokens) tokens.

Definition llama_decode (c : handle) (batch : list llama_token) : M Z :=
  let* status := gets (λ s, fst (eng_decode L c batch (eng s))) in
  modify (λ s, with_eng (snd (eng_decode L c batch (eng s)))
                 (touch (ctxs s) c s)) ;;
  emit (EDecode c batch status) ;;
  ret status.

Definition llama_sampler_chain_init : M handle :=
  let* h := gets next in
  modify (λ s, with_eng (eng_sampler_chain_init L (eng s))
                 (with_next (Pos.succ h)
                    (with_samplers ({[h]} ∪ samplers s) s))) ;;
  emit (ESamplerChainInit h) ;;
  ret h.

Definition llama_sampler_chain_add (smpl : handle) (stage : sampler_stage)
    : M unit :=
  modify (λ s, with_eng (eng_sampler_chain_add L smpl stage (eng s))
                 (touch (samplers s) smpl s)) ;;
  emit (ESamplerChainAdd smpl stage).

Definition llama_sampler_sample (smpl c : handle) (idx : Z) : M llama_token :=
  let* tok := gets (λ s, fst (eng_sampler_sample L smpl c idx (eng s))) in
  modify (λ s, with_eng (snd (eng_sampler_sample L smpl c idx (eng s)))
                 (touch (ctxs s) c (touch (samplers s) smpl s))) ;;
  emit (ESamplerSample smpl c idx tok) ;;
  ret tok.

Definition llama_vocab_is_eog (vocab : handle) (tok : llama_token) : M bool :=
  let* b := gets (λ s, eng_vocab_is_eog L (eng s) vocab tok) in
  modify (λ s, touch (models s) vocab s) ;;
  emit (EVocabIsEog tok b) ;;
  ret b.

Definition llama_token_to_piece (vocab : handle) (tok : llama_token)
    (length lstrip : Z) (special : bool) : M (Z * string) :=
  let* r := gets (λ s, eng_token_to_piece L (eng s) vocab tok length lstrip
                         special) in
  modify (λ s, touch (models s) vocab s) ;;
  emit (ETokenToPiece tok (fst r)) ;;
  ret r.

Definition llama_sampler_free (smpl : handle) : M unit :=
  modify (λ s, with_eng (eng_sampler_free L smpl (eng s))
                 (with_samplers (samplers s ∖ {[smpl]})
                    (touch (samplers s) smpl s))) ;;
  emit (ESamplerFree smpl).

Definition LOGE (msg : string) : M unit := emit (ELogE msg).
Definition LOGI (msg : string) : M unit := emit (ELogI msg).

(** The callback the caller passed to [llama_bridge_translate]. *)
Definition on_token (fragment : string) : M unit := emit (EOnToken fragment).

(** *** llama_bridge_init *)

Definition llama_bridge_init (model_path : string) (n_threads n_ctx : Z)
    : M bool :=
  modify (with_g_threads n_threads) ;;
  let mp_n_gpu_layers := 0 in
  let* m := llama_model_load_from_file model_path mp_n_gpu_layers in
  modify (with_g_model m) ;;
  match m with
  | None => LOGE ("Failed to load: " ++ model_path) ;; ret false
  | Some model =>
      let cp := {| n_ctx := to_uint32 n_ctx;
                   n_threads := to_uint32 n_threads;
                   n_threads_batch := to_uint32 n_threads |} in
      let* c := llama_init_from_model model cp in
      modify (with_g_ctx c) ;;
      match c with
      | None =>
          LOGE "Failed to create context" ;;
          (let* gm := gets g_model in llama_model_free gm) ;;
          modify (with_g_model None) ;;
          ret false
      | Some _ =>
          LOGI "Model loaded. SME=%s | I8MM=%s | BF16=%s" ;;
          ret true
      end
  end.

(** *** llama_bridge_translate *)

(** [std::vector::resize]: cut, or pad with zero tokens. *)
Definition resize (n : nat) (v : list llama_token) : list llama_token :=
  firstn n v ++ repeat 0 (n - length v)%nat.

(** [-n] on an [int]: not defined for [INT_MIN]. *)
Definition neg_int (n : Z) : option Z :=
  if n =? INT_MIN then None else Some (- n).

(** [std::string(piece, len)] *)
Definition string_of_piece (piece : string) (len : Z) : string :=
  String.substring 0 (Z.to_nat len) piece.

(** The loop of lines 85-94; [steps] is how many values of [i] are left. *)
Fixpoint decode_loop (steps : nat) (smpl ctx vocab : handle) : M unit :=
  match steps with
  | O => ret tt
  | Datatypes.S k =>
      let* tok := llama_sampler_sample smpl ctx (-1) in
      let* eog := llama_vocab_is_eog vocab tok in
      if eog : bool then ret tt
      else
        let* r := llama_token_to_piece vocab tok 256 0 true in
        let len := fst r in
        let piece := snd r in
        (if 0 <? len then on_token (string_of_piece piece len) else ret tt) ;;
        let next := llama_batch_get_one [tok] 1 in
        let* status := llama_decode ctx next in
        if negb (status =? 0) then ret tt
        else decode_loop k smpl ctx vocab
  end.

(** Lines 67-96: what the call does once the token count [n] is known. *)
Definition translate_tokens (ctx vocab : handle) (n : Z)
    (toks : list llama_token) : M unit :=
  if n <=? 0 then LOGE "Tokenization failed"
  else
    let toks := resize (Z.to_nat n) toks in
    let batch := llama_batch_get_one toks n in
    let* status := llama_decode ctx batch in
    if negb (status =? 0) then LOGE "Prefill failed"
    else
      let* smpl := llama_sampler_chain_init in
      llama_sampler_chain_add smpl (llama_sampler_init_top_p 90 1) ;;
      llama_sampler_chain_add smpl (llama_sampler_init_temp 60) ;;
      llama_sampler_chain_add smpl llama_sampler_init_dist_default_seed ;;
      decode_loop 512 smpl ctx vocab ;;
      llama_sampler_free smpl.

(** Lines 52-68, then [translate_tokens].  The tokenizer's count is an
    [int]; when it is [INT_MIN] the negation in [toks.resize(-n)] is not
    defined and no buffer of that size exists, so the call does not go on:
    the model records a fault and stops there. *)
Definition llama_bridge_translate (prompt : string) : M unit :=
  let* c := gets g_ctx in
  let* m := gets g_model in
  match c, m with
  | Some ctx, Some model =>
      llama_memory_clear (llama_get_memory ctx) true ;;
      let vocab := llama_model_get_vocab model in
      let toks := repeat 0 (String.length prompt + 64)%nat in
      let* r := llama_tokenize vocab prompt
                  (to_int32 (Z.of_nat (String.length prompt)))
                  toks (to_int32 (Z.of_nat (length toks))) true true in
      let n := fst r in
      let toks := snd r in
      if n <? 0 then
        match neg_int n with
        | None => modify (with_fault true)
        | Some size =>
            let toks := resize (Z.to_nat size) toks in
            let* r := llama_tokenize vocab prompt
                        (to_int32 (Z.of_nat (String.length prompt)))
                        toks (to_int32 (Z.of_nat (length toks))) true true in
            translate_tokens ctx vocab (fst r) (snd r)
        end
      else translate_tokens ctx vocab n toks
  | _, _ => ret tt
  end.

(** The text length, the first buffer and a buffer's capacity, as the
    tokenizer is given them. *)
Definition prompt_len (prompt : string) : Z :=
  to_int32 (Z.of_nat (String.length prompt)).

Definition first_buffer (prompt : string) : list llama_token :=
  repeat 0 (String.length prompt + 64)%nat.

Definition capacity (toks : list llama_token) : Z :=
  to_int32 (Z.of_nat (length toks)).

(** *** llama_bridge_free *)

Definition llama_bridge_free : M unit :=
  let* c := gets g_ctx in
  match c with
  | Some ctx => llama_free ctx ;; modify (with_g_ctx None)
  | None => ret tt
  end ;;
  let* m := gets g_model in
  match m with
  | Some model => llama_model_free (Some model) ;; modify (with_g_model None)
  | None => ret tt
  end.

(** The statics point to live objects, or are null. *)
Definition ptrs_live (s : st) : bool :=
  match g_ctx s with
  | Some c => bool_decide (c ∈ ctxs s)
  | None => true
  end &&
  match g_model s with
  | Some m => bool_decide (m ∈ models s)
  | None => true
  end.

(** Addresses are handed out in increasing order. *)
Definition next_fresh (s : st) : bool :=
  bool_decide (set_Forall (λ h, (h < next s)%positive)
                 (models s ∪ ctxs s ∪ samplers s)).

(** The fragments a trace delivered to the callback, in order. *)
Fixpoint fragments (tr : list event) : list string :=
  match tr with
  | [] => []
  | EOnToken f :: tr => f :: fragments tr
  | _ :: tr => fragments tr
  end.

(** How often a trace drew from the sampler. *)
Fixpoint sample_calls (tr : list event) : nat :=
  match tr with
  | [] => 0
  | ESamplerSample _ _ _ _ :: tr => Datatypes.S (sample_calls tr)
  | _ :: tr => sample_calls tr
  end.

(** How often a trace called the tokenizer. *)
Fixpoint tokenize_calls (tr : list event) : nat :=
  match tr with
  | [] => 0
  | ETokenize _ _ _ _ _ _ :: tr => Datatypes.S (tokenize_calls tr)
  | _ :: tr => tokenize_calls tr
  end.

(** How often a trace ran a decode, and how often a token rendered to a
    text that is not empty. *)
Fixpoint decode_calls (tr : list event) : nat :=
  match tr with
  | [] => 0
  | EDecode _ _ _ :: tr => Datatypes.S (decode_calls tr)
  | _ :: tr => decode_calls tr
  end.

Fixpoint rendered_nonempty (tr : list event) : nat :=
  match tr with
  | [] => 0
  | ETokenToPiece _ len :: tr =>
      if 0 <? len then Datatypes.S (rendered_nonempty tr)
      else rendered_nonempty tr
  | _ :: tr => rendered_nonempty tr
  end.

(** *** The three entry points, as pipeline_jni.cpp exposes them *)

Inductive call :=
| nativeLlamaInit (path : string) (threads n_ctx : Z)
| nativeLlamaTranslate (prompt : string)
| nativeLlamaFree.

Inductive reply :=
| Loaded (ok : bool)
| Translated
| Freed.

Definition perform (c : call) : M reply :=
  match c with
  | nativeLlamaInit path threads n_ctx =>
      let* ok := llama_bridge_init path threads n_ctx in ret (Loaded ok)
  | nativeLlamaTranslate prompt =>
      llama_bridge_translate prompt ;; ret Translated
  | nativeLlamaFree => llama_bridge_free ;; ret Freed
  end.

Fixpoint perform_all (cs : list call) : M (list reply) :=
  match cs with
  | [] => ret []
  | c :: cs =>
      let* r := perform c in
      let* rs := perform_all cs in
      ret (r :: rs)
  end.

(** The objects a call works on are live: the context, the model, and the
    sampler chain once there is one. *)
Definition objects_live (smpl : ptr) (ctx model : handle) (s : st) : Prop :=
  ctx ∈ ctxs s ∧ model ∈ models s
  ∧ match smpl with Some h => h ∈ samplers s | None => True end.

(** [safely P m Q]: started where [P] holds, [m] ends where [Q] holds of its
    value and raises no fault. *)
Definition safely {A : Type} (P : st → Prop) (m : M A)
    (Q : A → st → Prop) : Prop :=
  ∀ s, P s → Q (value (m s)) (final (m s)) ∧ fault (final (m s)) = fault s.

(** The statics with the models and contexts they can point to; the sampler
    chains with the allocator. *)
Definition handles (s : st) : ptr * ptr * Z * gset handle * gset handle :=
  (g_model s, g_ctx s, g_threads s, models s, ctxs s).

Definition pool (s : st) : gset handle * handle := (samplers s, next s).

(** A call leaves a view [P] of the state as it found it. *)
Definition preserves {X A : Type} (P : st → X) (m : M A) : Prop :=
  ∀ s, P (final (m s)) = P s.

End Bridge.

Arguments llama_model_load_from_file : simpl never.
Arguments llama_model_free : simpl never.
Arguments llama_init_from_model : simpl never.
Arguments llama_free : simpl never.
Arguments llama_memory_clear : simpl never.
Arguments llama_tokenize : simpl never.
Arguments llama_decode : simpl never.
Arguments llama_sampler_chain_init : simpl never.
Arguments llama_sampler_chain_add : simpl never.
Arguments llama_sampler_sample : simpl never.
Arguments llama_vocab_is_eog : simpl never.
Arguments llama_token_to_piece : simpl never.
Arguments llama_sampler_free : simpl never.
Arguments decode_loop : simpl never.
Arguments translate_tokens : simpl never.

(** *** The traces the decode loop can leave *)

(** What follows a prefill that succeeded, up to the loop. *)
Definition sampler_setup (smpl : handle) : list event :=
  [ESamplerChainInit smpl;
   ESamplerChainAdd smpl (llama_sampler_init_top_p 90 1);
   ESamplerChainAdd smpl (llama_sampler_init_temp 60);
   ESamplerChainAdd smpl llama_sampler_init_dist_default_seed].


(** One pass through the loop body that gets as far as decoding. *)
Definition pass_events (smpl ctx : handle) (tok : llama_token) (len : Z)
    (piece : string) (status : Z) : list event :=
  [ESamplerSample smpl ctx (-1) tok; EVocabIsEog tok false;
   ETokenToPiece tok len]
  ++ (if 0 <? len then [EOnToken (string_of_piece piece len)] else [])
  ++ [EDecode ctx [tok] status].

(** [loop_trace smpl ctx k tr]: [tr] is a run of the loop with [k] values of
    [i] left.  It ends at the cap, at an end-of-generation token, or at a
    decode that fails. *)
Inductive loop_trace (smpl ctx : handle) : nat → list event → Prop :=
| loop_cap : loop_trace smpl ctx 0 []
| loop_eog k tok :
    loop_trace smpl ctx (Datatypes.S k)
      [ESamplerSample smpl ctx (-1) tok; EVocabIsEog tok true]
| loop_fail k tok len piece status :
    status ≠ 0 →
    loop_trace smpl ctx (Datatypes.S k)
      (pass_events smpl ctx tok len piece status)
| loop_next k tok len piece rest :
    loop_trace smpl ctx k rest →
    loop_trace smpl ctx (Datatypes.S k)
      (pass_events smpl ctx tok len piece 0 ++ rest).

(** *** The outcomes of llama_bridge_translate *)

(** What a call does before it knows the token count. *)
Definition prelude_event (e : event) : bool :=
  match e with
  | EMemoryClear _ _ | ETokenize _ _ _ _ _ _ => true
  | _ => false
  end.

(** The events outside the sampler's life: no callback, no draw, no
    end-of-generation check, no sampler chain. *)
Definition quiet_event (e : event) : bool :=
  match e with
  | EMemoryClear _ _ | ETokenize _ _ _ _ _ _ | EDecode _ _ _ | ELogE _ => true
  | _ => false
  end.

(** A call that started in [s], left the trace [tr] and ended in [s'] either
    stayed quiet and left the sampler chains as they were, or set up one
    chain at the next free address, ran the loop, and freed that chain as the
    last thing it did. *)
Definition translate_outcome {Ω} (s : state Ω) (tr : list event)
    (s' : state Ω) : Prop :=
  (Forall (λ e, quiet_event e = true) tr ∧ samplers s' = samplers s)
  ∨ ∃ head body ctx,
      tr = head ++ sampler_setup (next s) ++ body ++ [ESamplerFree (next s)]
      ∧ Forall (λ e, quiet_event e = true) head
      ∧ loop_trace (next s) ctx 512 body
      ∧ samplers s' = ({[next s]} ∪ samplers s) ∖ {[next s]}.

(** A small engine to run the bridge on.  Its state is the number of tokens
    the context holds.  One model file loads; a context needs a positive
    size; a prompt has one token per character, except that ["+"] has 98
    and a prompt starting with ["?"] never fits the buffer; decoding fails
    when it brings the context to two or to a hundred tokens; the sampler
    draws the number of tokens held, and 5 is the end-of-generation token. *)
Definition mock_token_count (text : string) (capacity : Z) : Z :=
  match text with
  | String "?" _ => capacity + 1
  | String "+" EmptyString => 98
  | _ => Z.of_nat (String.length text)
  end.

Definition mock : engine Z :=
  {| eng_model_load := λ path _ ω, (String.eqb path "model.gguf", ω);
     eng_init_from_model := λ _ cp ω, (0 <? n_ctx cp, ω);
     eng_memory_clear := λ _ _ _, 0;
     eng_tokenize := λ _ _ text _ tokens capacity _ _,
       let need := mock_token_count text capacity in
       if capacity <? need then (- need, tokens)
       else (need, repeat 7 (Z.to_nat need));
     eng_decode := λ _ batch ω,
       let held := ω + Z.of_nat (length batch) in
       (if (held =? 2) || (held =? 100) then 1 else 0, held);
     eng_sampler_chain_init := λ ω, ω;
     eng_sampler_chain_add := λ _ _ ω, ω;
     eng_sampler_sample := λ _ _ _ ω, (ω, ω);
     eng_vocab_is_eog := λ _ _ tok, tok =? 5;
     eng_token_to_piece := λ _ _ tok _ _ _, (tok mod 3, "ab"%string);
     eng_sampler_free := λ _ ω, ω;
     eng_free := λ _ ω, ω;
     eng_model_free := λ _ ω, ω |}.

End Llama.

(** * pipeline_jni.cpp: the capability summary *)

Module Jni.

Definition yes_no (flag : bool) : string :=
  if flag then "YES"%string else "NO"%string.

(** [snprintf(buf, size, ...)]: the text [buf] holds in front of the
    terminator, at most [size - 1] characters of what was asked for. *)
Definition snprintf (size : nat) (text : string) : string :=
  String.substring 0 (size - 1) text.

(** Lines 72-95.  The two [ggml_cpu_has_*] answers are C integers used as
    conditions; the other two flags are fixed when the file is compiled. *)
Definition nativeGetBackendInfo (ggml_cpu_has_sme ggml_cpu_has_matmul_int8 : Z)
    (arm_neon arm_bf16 : bool) : string :=
  let sme := negb (ggml_cpu_has_sme =? 0) in
  let i8mm := negb (ggml_cpu_has_matmul_int8 =? 0) in
  snprintf 256
    ("SME=" ++ yes_no sme ++ " | NEON=" ++ yes_no arm_neon
     ++ " | I8MM=" ++ yes_no i8mm ++ " | BF16=" ++ yes_no arm_bf16)%string.

End Jni.

(** * Running the bridge on the small engines *)

Module Examples.

Definition w0 := Whisper.initial tt.
Definition w1 := final (Whisper.whisper_bridge_init Whisper.mock "ggml-base.bin" 4 w0).

Definition l0 := Llama.initial 0.
Definition l1 := final (Llama.llama_bridge_init Llama.mock "model.gguf" 4 2048 l0).

End Examples.

(** * Facts about bridge calls *)

Section MonadFacts.
Context {S E : Type}.

Lemma value_bind {A B} (m : M S E A) (k : A → M S E B) (s : S) :
  value (bind m k s) = value (k (value (m s)) (final (m s))).
Proof.
  unfold bind. destruct (m s) as [[a s1] t1]. cbn.
  now destruct (k a s1) as [[b s2] t2].
Qed.

Lemma final_bind {A B} (m : M S E A) (k : A → M S E B) (s : S) :
  final (bind m k s) = final (k (value (m s)) (final (m s))).
Proof.
  unfold bind. destruct (m s) as [[a s1] t1]. cbn.
  now destruct (k a s1) as [[b s2] t2].
Qed.

Lemma trace_bind {A B} (m : M S E A) (k : A → M S E B) (s : S) :
  trace (bind m k s) = trace (m s) ++ trace (k (value (m s)) (final (m s))).
Proof.
  unfold bind. destruct (m s) as [[a s1] t1]. cbn.
  now destruct (k a s1) as [[b s2] t2].
Qed.

(** Splitting a list at an element that its first part does not hold. *)
Lemma split_past {A} (e : A) (l1 l2 pre post : list A) :
  Forall (λ x, x ≠ e) l1 →
  l1 ++ l2 = pre ++ e :: post →
  ∃ pre', pre = l1 ++ pre' ∧ l2 = pre' ++ e :: post.
Proof.
  revert pre. induction l1 as [|x l1 IH]; intros pre Hne Heq.
  - exists pre. split; [reflexivity | exact Heq].
  - inversion Hne as [|? ? Hx Hl1]; subst.
    destruct pre as [|p pre]; cbn in Heq.
    + injection Heq as Hxe _. contradiction.
    + injection Heq as -> Heq.
      destruct (IH pre Hl1 Heq) as (pre' & -> & ->).
      exists pre'. split; reflexivity.
Qed.

(** Splitting a list that ends in another element. *)
Lemma split_before_last {A} (e x : A) (l pre post : list A) :
  x ≠ e →
  l ++ [x] = pre ++ e :: post →
  ∃ post', post = post' ++ [x] ∧ l = pre ++ e :: post'.
Proof.
  intros Hne. revert pre. induction l as [|y l IH]; intros pre Heq.
  - destruct pre as [|p pre]; cbn in Heq.
    + injection Heq as Hxe _. contradiction.
    + injection Heq as _ Heq. now destruct pre.
  - destruct pre as [|p pre]; cbn in Heq.
    + injection Heq as -> Heq. exists l. split; [now rewrite Heq | reflexivity].
    + injection Heq as -> Heq.
      destruct (IH pre Heq) as (post' & -> & ->).
      exists post'. split; reflexivity.
Qed.

End MonadFacts.

(** * Facts about whisper_bridge.cpp *)

Module WhisperFacts.
Import Whisper.

Section Facts.
Context {Ω Pcm : Type} (W : engine Ω Pcm).

(** ** Strings *)

Lemma substring_all (t : string) : String.substring 0 (String.length t) t = t.
Proof. induction t as [|c t IH]; cbn; [reflexivity | now rewrite IH]. Qed.

Lemma strip_leading_space_space (rest : string) :
  strip_leading_space (String " " rest) = rest.
Proof.
  unfold strip_leading_space. cbn.
  rewrite Nat.sub_0_r. apply substring_all.
Qed.

Lemma strip_leading_space_other (t : string) :
  (∀ rest, t ≠ String " " rest) → strip_leading_space t = t.
Proof.
  intros Hne. unfold strip_leading_space.
  destruct t as [|c t]; cbn; [reflexivity|].
  destruct (Ascii.eqb c " ") eqn:Hc; [|reflexivity].
  apply Ascii.eqb_eq in Hc. subst c. now destruct (Hne t).
Qed.

Lemma append_cons (x : ascii) (a b : string) :
  (String x a ++ b)%string = String x (a ++ b).
Proof. reflexivity. Qed.

Lemma append_assoc (a b c : string) :
  ((a ++ b) ++ c)%string = (a ++ (b ++ c))%string.
Proof.
  induction a as [|x a IH]; [reflexivity|].
  rewrite !append_cons. now f_equal.
Qed.

Lemma append_empty_r (a : string) : (a ++ EmptyString)%string = a.
Proof.
  induction a as [|x a IH]; [reflexivity|].
  rewrite append_cons. now f_equal.
Qed.

(** ** The segment loop *)



(** The loop reads the engine only: it returns the text it started with,
    followed by the non-null segments [i, i + count). *)
Lemma concat_segments_run (h : handle) (count : nat) :
  ∀ (i : nat) (out : string) (s : state Ω),
    concat_segments W h (Z.of_nat i) count out s
    = ((out ++ fold_right String.append EmptyString
                 (omap (λ j, eng_segment_text W (eng s) h (Z.of_nat j))
                       (seq i count)))%string, s, []).
Proof.
  induction count as [|k IH]; intros i out s.
  - cbn. now rewrite append_empty_r.
  - cbn [concat_segments seq].
    unfold bind at 1, whisper_full_get_segment_text, gets.
    replace (Z.of_nat i + 1) with (Z.of_nat (Datatypes.S i)) by lia.
    rewrite IH. cbn [app omap list_omap].
    destruct (eng_segment_text W (eng s) h (Z.of_nat i)) as [t|].
    + cbn [foldr]. now rewrite append_assoc.
    + reflexivity.
Qed.

Lemma concat_segments_all (h : handle) (s : state Ω) :
  concat_segments W h 0 (Z.to_nat (eng_n_segments W (eng s) h)) EmptyString s
  = (transcript W (eng s) h, s, []).
Proof.
  exact (concat_segments_run h (Z.to_nat (eng_n_segments W (eng s) h)) 0%nat
           EmptyString s).
Qed.

(** ** whisper_bridge_transcribe *)

Lemma transcribe_null pcm n_samples lang (s : state Ω) :
  g_ctx s = None →
  whisper_bridge_transcribe W pcm n_samples lang s = (EmptyString, s, []).
Proof.
  intros H. unfold whisper_bridge_transcribe, bind, gets. cbn.
  now rewrite H.
Qed.

Lemma transcribe_failed pcm n_samples lang (s : state Ω) (h : handle) :
  g_ctx s = Some h →
  let wp := full_params lang (g_threads s) in
  let status := fst (eng_full W h wp pcm n_samples (eng s)) in
  status ≠ 0 →
  whisper_bridge_transcribe W pcm n_samples lang s
  = (EmptyString, after_full W h wp pcm n_samples s,
     [EFull h wp n_samples status; ELogE "whisper_full() failed"]).
Proof.
  intros H wp status Hst.
  unfold whisper_bridge_transcribe, bind, gets. cbn. rewrite H. cbn.
  fold wp. fold status.
  destruct (status =? 0) eqn:E; [apply Z.eqb_eq in E; contradiction|].
  reflexivity.
Qed.

Lemma transcribe_passed pcm n_samples lang (s : state Ω) (h : handle) :
  g_ctx s = Some h →
  let wp := full_params lang (g_threads s) in
  fst (eng_full W h wp pcm n_samples (eng s)) = 0 →
  whisper_bridge_transcribe W pcm n_samples lang s
  = (strip_leading_space
       (transcript W (snd (eng_full W h wp pcm n_samples (eng s))) h),
     after_full W h wp pcm n_samples s,
     [EFull h wp n_samples 0]).
Proof.
  intros H wp Hst.
  unfold whisper_bridge_transcribe, bind, gets. cbn. rewrite H. cbn.
  fold wp. rewrite Hst. cbn.
  match goal with
  | |- context [concat_segments W h 0 _ _ ?s'] =>
      pose proof (concat_segments_all h s') as Hrun; cbn in Hrun;
      rewrite !Hrun
  end.
  reflexivity.
Qed.

(** ** whisper_bridge_free *)

Lemma whisper_free_null (s : state Ω) :
  g_ctx s = None → whisper_bridge_free W s = (tt, s, []).
Proof.
  intros H. unfold whisper_bridge_free, bind, gets. cbn. now rewrite H.
Qed.

Lemma whisper_free_live (s : state Ω) (h : handle) :
  g_ctx s = Some h →
  whisper_bridge_free W s = (tt, released W h s, [EFree h]).
Proof.
  intros H. unfold whisper_bridge_free, bind, gets. cbn. now rewrite H.
Qed.

Lemma init_null path threads (s : state Ω) :
  g_ctx s = None →
  whisper_bridge_init W path threads s
  = (fst (eng_init_from_file W path false (eng s)),
     loaded W path threads s, load_trace W path s).
Proof.
  intros H. unfold whisper_bridge_init, bind, gets, loaded, load_trace.
  cbn. rewrite H. cbn.
  destruct (eng_init_from_file W path false (eng s)) as [[] ω]; reflexivity.
Qed.

Lemma init_live path threads (s : state Ω) (h : handle) :
  g_ctx s = Some h →
  whisper_bridge_init W path threads s
  = (fst (eng_init_from_file W path false (eng (released W h s))),
     loaded W path threads (released W h s),
     EFree h :: load_trace W path (released W h s)).
Proof.
  intros H. unfold whisper_bridge_init, bind, gets, loaded, load_trace.
  cbn. rewrite H. cbn.
  destruct (eng_init_from_file W path false (eng_free W h (eng s)))
    as [[] ω]; reflexivity.
Qed.

(** A failed init leaves the static null, whatever it was. *)
Lemma init_failed_null path threads (s : state Ω) :
  value (whisper_bridge_init W path threads s) = false →
  g_ctx (final (whisper_bridge_init W path threads s)) = None.
Proof.
  destruct (g_ctx s) as [h|] eqn:H.
  - rewrite (init_live _ _ _ _ H). unfold value, final, loaded; cbn.
    now intros ->.
  - rewrite (init_null _ _ _ H). unfold value, final, loaded; cbn.
    now intros ->.
Qed.

(** ** Sequences of calls *)

(** While the static is null, transcriptions are empty until an init
    succeeds. *)
Lemma silent_while_null (cs : list (call (Pcm := Pcm))) :
  ∀ s : state Ω,
    g_ctx s = None →
    silent_until_loaded (value (perform_all W cs s)) = true.
Proof.
  induction cs as [|c cs IH]; intros s H; [reflexivity|].
  cbn [perform_all]. rewrite !value_bind.
  change (silent_until_loaded
            (value (perform W c s)
             :: value (perform_all W cs (final (perform W c s)))) = true).
  destruct c as [path threads | pcm n_samples lang |]; cbn [perform];
    rewrite value_bind, final_bind.
  - change (silent_until_loaded
              (Loaded (value (whisper_bridge_init W path threads s))
               :: value (perform_all W cs
                           (final (whisper_bridge_init W path threads s))))
            = true).
    destruct (value (whisper_bridge_init W path threads s)) eqn:Hok;
      cbn [silent_until_loaded]; [reflexivity|].
    apply IH. now apply init_failed_null.
  - rewrite (transcribe_null _ _ _ _ H). cbn. now apply IH.
  - rewrite (whisper_free_null _ H). cbn. now apply IH.
Qed.

(** A transcription with the static set begins by running the engine. *)
Lemma transcribe_starts pcm n_samples lang (s : state Ω) (h : handle) :
  g_ctx s = Some h →
  ∃ status rest,
    trace (whisper_bridge_transcribe W pcm n_samples lang s)
    = EFull h (full_params lang (g_threads s)) n_samples status :: rest.
Proof.
  intros H.
  destruct (Z.eq_dec
              (fst (eng_full W h (full_params lang (g_threads s)) pcm
                      n_samples (eng s))) 0) as [Hst | Hst].
  - rewrite (transcribe_passed _ _ _ _ _ H Hst). now exists 0, [].
  - rewrite (transcribe_failed _ _ _ _ _ H Hst). eexists _, _. reflexivity.
Qed.

(** A re-init frees the handle it finds before it loads. *)
Lemma init_trace_live path threads (s : state Ω) (h : handle) :
  g_ctx s = Some h →
  let r := whisper_bridge_init W path threads s in
  trace r
  = [EFree h; EInit path false (g_ctx (final r));
     if value r then ELogI ("Whisper model loaded OK from " ++ path)
     else ELogE ("Failed to load: " ++ path)].
Proof.
  intros H r. subst r. rewrite (init_live _ _ _ _ H).
  unfold value, final, trace, loaded, load_trace. cbn.
  now destruct (fst (eng_init_from_file W path false (eng_free W h (eng s)))).
Qed.

(** A re-init that succeeds leaves exactly the old contexts but [h], and the
    new one. *)
Lemma reinit_releases_prior path threads (s : state Ω) (h : handle) :
  g_ctx s = Some h →
  let r := whisper_bridge_init W path threads s in
  value r = true →
  g_ctx (final r) = Some (next s)
  ∧ live (final r) = {[next s]} ∪ (live s ∖ {[h]}).
Proof.
  intros H r. subst r. rewrite (init_live _ _ _ _ H).
  unfold value, final, loaded. cbn. intros ->. now split.
Qed.

(** ** Safety of the three entry points *)

Lemma perform_safe (c : call (Pcm := Pcm)) (s : state Ω) :
  ptr_live s = true →
  ptr_live (final (perform W c s)) = true
  ∧ fault (final (perform W c s)) = fault s.
Proof.
  unfold ptr_live. intros Hs.
  destruct c as [path threads | pcm n_samples lang |]; cbn [perform];
    rewrite final_bind; cbn [ret final fst snd].
  - destruct (g_ctx s) as [h|] eqn:H.
    + rewrite (init_live _ _ _ _ H). unfold final, loaded, released, touch.
      cbn -[bool_decide]. rewrite Hs.
      destruct (fst (eng_init_from_file W path false _)); cbn -[bool_decide].
      * split; [|now rewrite orb_false_r].
        apply bool_decide_eq_true_2. set_solver.
      * split; [reflexivity | now rewrite orb_false_r].
    + rewrite (init_null _ _ _ H). unfold final, loaded. cbn -[bool_decide].
      destruct (fst (eng_init_from_file W path false _)); cbn -[bool_decide].
      * split; [|reflexivity]. apply bool_decide_eq_true_2. set_solver.
      * now split.
  - destruct (g_ctx s) as [h|] eqn:H.
    + destruct (Z.eq_dec
                  (fst (eng_full W h (full_params lang (g_threads s)) pcm
                          n_samples (eng s))) 0) as [Hst | Hst].
      * rewrite (transcribe_passed _ _ _ _ _ H Hst).
        unfold final, after_full, touch. cbn -[bool_decide].
        rewrite H, Hs. split; [reflexivity | now rewrite orb_false_r].
      * rewrite (transcribe_failed _ _ _ _ _ H Hst).
        unfold final, after_full, touch. cbn -[bool_decide].
        rewrite H, Hs. split; [reflexivity | now rewrite orb_false_r].
    + rewrite (transcribe_null _ _ _ _ H). cbn. now rewrite H.
  - destruct (g_ctx s) as [h|] eqn:H.
    + rewrite (whisper_free_live _ _ H). unfold final, released, touch.
      cbn -[bool_decide]. rewrite Hs. split; [reflexivity|].
      now rewrite orb_false_r.
    + rewrite (whisper_free_null _ H). cbn. now rewrite H.
Qed.

(** From the initial state, no sequence of calls uses or frees a dead
    context. *)
Lemma perform_all_safe (cs : list (call (Pcm := Pcm))) :
  ∀ s : state Ω,
    ptr_live s = true →
    ptr_live (final (perform_all W cs s)) = true
    ∧ fault (final (perform_all W cs s)) = fault s.
Proof.
  induction cs as [|c cs IH]; intros s Hs; [now split|].
  cbn [perform_all]. rewrite !final_bind. cbn [ret final fst snd].
  destruct (perform_safe c s Hs) as [H1 H2].
  destruct (IH _ H1) as [H3 H4]. split; [exact H3 | congruence].
Qed.

(** ** At most one live context *)

Lemma perform_sole_owner (c : call (Pcm := Pcm)) (s : state Ω) :
  sole_owner s → sole_owner (final (perform W c s)).
Proof.
  unfold sole_owner. intros Hs.
  destruct c as [path threads | pcm n_samples lang |]; cbn [perform];
    rewrite final_bind; cbn [ret final fst snd].
  - destruct (g_ctx s) as [h|] eqn:H.
    + rewrite (init_live _ _ _ _ H). unfold final, loaded, released.
      cbn -[bool_decide]. rewrite Hs.
      destruct (fst (eng_init_from_file W path false _)); cbn -[bool_decide].
      * rewrite difference_diag_L. apply right_id_L. apply _.
      * apply difference_diag_L.
    + rewrite (init_null _ _ _ H). unfold final, loaded. cbn -[bool_decide].
      rewrite Hs.
      destruct (fst (eng_init_from_file W path false _)); cbn -[bool_decide].
      * apply right_id_L. apply _.
      * reflexivity.
  - destruct (g_ctx s) as [h|] eqn:H.
    + destruct (Z.eq_dec
                  (fst (eng_full W h (full_params lang (g_threads s)) pcm
                          n_samples (eng s))) 0) as [Hst | Hst].
      * rewrite (transcribe_passed _ _ _ _ _ H Hst).
        unfold final, after_full. cbn -[bool_decide]. now rewrite H.
      * rewrite (transcribe_failed _ _ _ _ _ H Hst).
        unfold final, after_full. cbn -[bool_decide]. now rewrite H.
    + rewrite (transcribe_null _ _ _ _ H). cbn. now rewrite H.
  - destruct (g_ctx s) as [h|] eqn:H.
    + rewrite (whisper_free_live _ _ H). unfold final, released.
      cbn -[bool_decide]. rewrite Hs. apply difference_diag_L.
    + rewrite (whisper_free_null _ H). cbn. now rewrite H.
Qed.

(** Whatever the caller does from the initial state, the ASR manager never
    holds two live contexts: the live set is the static's target. *)
Lemma perform_all_sole_owner (cs : list (call (Pcm := Pcm))) :
  ∀ s : state Ω, sole_owner s → sole_owner (final (perform_all W cs s)).
Proof.
  induction cs as [|c cs IH]; intros s Hs; [exact Hs|].
  cbn [perform_all]. rewrite !final_bind. cbn [ret final fst snd].
  apply IH. now apply perform_sole_owner.
Qed.

Lemma sole_owner_size (s : state Ω) : sole_owner s → (size (live s) ≤ 1)%nat.
Proof.
  unfold sole_owner. intros ->. destruct (g_ctx s).
  - rewrite size_singleton. lia.
  - rewrite size_empty. lia.
Qed.

(** With addresses handed out in increasing order, a re-init that succeeds
    leaves the handle it found dead. *)
Lemma reinit_prior_dead path threads (s : state Ω) (h : handle) :
  g_ctx s = Some h → h ∈ live s → next_fresh s = true →
  let r := whisper_bridge_init W path threads s in
  value r = true → h ∉ live (final r).
Proof.
  intros H Hin Hfresh r Hv.
  destruct (reinit_releases_prior path threads s h H Hv) as [_ Hl].
  fold r in Hl. rewrite Hl. clear Hl.
  unfold next_fresh in Hfresh. apply bool_decide_eq_true_1 in Hfresh.
  specialize (Hfresh h Hin). cbn beta in Hfresh.
  intros Hx. apply elem_of_union in Hx as [Hx | Hx].
  - apply elem_of_singleton in Hx. lia.
  - apply elem_of_difference in Hx as [_ Hx]. apply Hx.
    now apply elem_of_singleton.
Qed.

End Facts.
End WhisperFacts.

(** * Facts about llama_bridge.cpp *)

Module LlamaFacts.
Import Llama.

Section Facts.
Context {Ω : Type} (L : engine Ω).

(** ** What a trace holds *)

Lemma fragments_app (t1 t2 : list event) :
  fragments (t1 ++ t2) = fragments t1 ++ fragments t2.
Proof.
  induction t1 as [|e t1 IH]; [reflexivity|].
  destruct e; cbn; now rewrite ?IH.
Qed.

Lemma sample_calls_app (t1 t2 : list event) :
  sample_calls (t1 ++ t2) = (sample_calls t1 + sample_calls t2)%nat.
Proof.
  induction t1 as [|e t1 IH]; [reflexivity|].
  destruct e; cbn; now rewrite ?IH.
Qed.

Lemma tokenize_calls_app (t1 t2 : list event) :
  tokenize_calls (t1 ++ t2) = (tokenize_calls t1 + tokenize_calls t2)%nat.
Proof.
  induction t1 as [|e t1 IH]; [reflexivity|].
  destruct e; cbn; now rewrite ?IH.
Qed.

(** ** The traces of the native calls *)

Lemma trace_sample smpl c idx (s : state Ω) :
  trace (llama_sampler_sample L smpl c idx s)
  = [ESamplerSample smpl c idx (value (llama_sampler_sample L smpl c idx s))].
Proof. reflexivity. Qed.

Lemma trace_is_eog v tok (s : state Ω) :
  trace (llama_vocab_is_eog L v tok s)
  = [EVocabIsEog tok (value (llama_vocab_is_eog L v tok s))].
Proof. reflexivity. Qed.

Lemma trace_piece v tok len lstrip special (s : state Ω) :
  trace (llama_token_to_piece L v tok len lstrip special s)
  = [ETokenToPiece tok
       (fst (value (llama_token_to_piece L v tok len lstrip special s)))].
Proof. reflexivity. Qed.

Lemma trace_decode c batch (s : state Ω) :
  trace (llama_decode L c batch s)
  = [EDecode c batch (value (llama_decode L c batch s))].
Proof. reflexivity. Qed.

(** ** The decode loop *)

Lemma pass_events_app smpl c tok len piece status (rest : list event) :
  [ESamplerSample smpl c (-1) tok] ++ [EVocabIsEog tok false]
  ++ [ETokenToPiece tok len]
  ++ (if 0 <? len then [EOnToken (string_of_piece piece len)] else [])
  ++ [EDecode c [tok] status] ++ rest
  = pass_events smpl c tok len piece status ++ rest.
Proof.
  unfold pass_events. destruct (0 <? len); reflexivity.
Qed.

Lemma decode_loop_trace (k : nat) (smpl c v : handle) :
  ∀ s : state Ω, loop_trace smpl c k (trace (decode_loop L k smpl c v s)).
Proof.
  induction k as [|k IH]; intros s; [constructor|].
  unfold decode_loop; fold (decode_loop L).
  rewrite trace_bind, trace_sample. cbn beta.
  set (tok := value (llama_sampler_sample L smpl c (-1) s)).
  set (s1 := final (llama_sampler_sample L smpl c (-1) s)).
  rewrite trace_bind, trace_is_eog. cbn beta.
  destruct (value (llama_vocab_is_eog L v tok s1)) eqn:Heog.
  { apply loop_eog. }
  set (s2 := final (llama_vocab_is_eog L v tok s1)).
  rewrite trace_bind, trace_piece. cbn beta.
  set (r := value (llama_token_to_piece L v tok 256 0 true s2)).
  set (s3 := final (llama_token_to_piece L v tok 256 0 true s2)).
  rewrite trace_bind. cbn beta.
  set (emitted := (if 0 <? fst r then on_token (string_of_piece (snd r) (fst r))
                   else ret tt) s3).
  rewrite trace_bind, trace_decode. cbn beta.
  change (llama_batch_get_one [tok] 1) with [tok].
  set (status := value (llama_decode L c [tok] (final emitted))).
  assert (Htr : trace emitted
                = if 0 <? fst r then [EOnToken (string_of_piece (snd r) (fst r))]
                  else []).
  { unfold emitted. now destruct (0 <? fst r). }
  rewrite Htr.
  destruct (status =? 0) eqn:Hst; cbn [negb].
  - apply Z.eqb_eq in Hst. rewrite Hst, pass_events_app.
    apply loop_next, IH.
  - apply Z.eqb_neq in Hst.
    rewrite pass_events_app, app_nil_r. now apply loop_fail.
Qed.

(** ** What a loop trace holds *)

Lemma pass_fragments smpl c tok len piece status :
  (length (fragments (pass_events smpl c tok len piece status)) ≤ 1)%nat.
Proof. unfold pass_events. destruct (0 <? len); cbn; lia. Qed.

Lemma pass_samples smpl c tok len piece status :
  sample_calls (pass_events smpl c tok len piece status) = 1%nat.
Proof. unfold pass_events. destruct (0 <? len); reflexivity. Qed.

Lemma pass_tokenize smpl c tok len piece status :
  tokenize_calls (pass_events smpl c tok len piece status) = 0%nat.
Proof. unfold pass_events. destruct (0 <? len); reflexivity. Qed.

Lemma pass_no_eog smpl c tok len piece status tok' :
  Forall (λ e, e ≠ EVocabIsEog tok' true)
         (pass_events smpl c tok len piece status).
Proof.
  unfold pass_events. destruct (0 <? len); cbn;
    repeat (constructor; [discriminate|]); constructor.
Qed.

Lemma pass_no_init smpl c tok len piece status x :
  ¬ In (ESamplerChainInit x) (pass_events smpl c tok len piece status).
Proof.
  unfold pass_events. destruct (0 <? len); cbn; intuition discriminate.
Qed.

Lemma loop_fragments_le smpl c k tr :
  loop_trace smpl c k tr → (length (fragments tr) ≤ k)%nat.
Proof.
  induction 1 as [|k tok|k tok len piece status Hst|k tok len piece rest _ IH].
  - cbn; lia.
  - cbn; lia.
  - pose proof (pass_fragments smpl c tok len piece status). lia.
  - rewrite fragments_app, length_app.
    pose proof (pass_fragments smpl c tok len piece 0). lia.
Qed.

Lemma loop_samples_le smpl c k tr :
  loop_trace smpl c k tr → (sample_calls tr ≤ k)%nat.
Proof.
  induction 1 as [|k tok|k tok len piece status Hst|k tok len piece rest _ IH].
  - cbn; lia.
  - cbn; lia.
  - rewrite pass_samples. lia.
  - rewrite sample_calls_app, pass_samples. lia.
Qed.

Lemma loop_tokenize smpl c k tr :
  loop_trace smpl c k tr → tokenize_calls tr = 0%nat.
Proof.
  induction 1 as [|k tok|k tok len piece status Hst|k tok len piece rest _ IH].
  - reflexivity.
  - reflexivity.
  - apply pass_tokenize.
  - now rewrite tokenize_calls_app, pass_tokenize, IH.
Qed.

Lemma loop_no_init smpl c k tr x :
  loop_trace smpl c k tr → ¬ In (ESamplerChainInit x) tr.
Proof.
  induction 1 as [|k tok|k tok len piece status Hst|k tok len piece rest _ IH].
  - intros [].
  - cbn. intuition discriminate.
  - apply pass_no_init.
  - rewrite in_app_iff. intros [H | H]; [|now apply IH].
    now apply pass_no_init in H.
Qed.

(** Nothing follows an end-of-generation token. *)
Lemma loop_eog_last smpl c k tr :
  loop_trace smpl c k tr →
  ∀ pre tok post, tr = pre ++ EVocabIsEog tok true :: post → post = [].
Proof.
  induction 1 as [|k tok0|k tok0 len piece status Hst|k tok0 len piece rest _ IH];
    intros pre tok post Heq.
  - now destruct pre.
  - destruct pre as [|p pre]; [discriminate|].
    destruct pre as [|p' pre]; [now injection Heq|].
    injection Heq as _ _ Heq. now destruct pre.
  - rewrite <- (app_nil_r (pass_events _ _ _ _ _ _)) in Heq.
    apply split_past in Heq; [|apply pass_no_eog].
    destruct Heq as (pre' & _ & Heq). now destruct pre'.
  - apply split_past in Heq; [|apply pass_no_eog].
    destruct Heq as (pre' & _ & Heq). now apply (IH pre' tok).
Qed.

(** ** What a call leaves untouched *)

Lemma preserves_ret {X A} (P : state Ω → X) (a : A) : preserves P (ret a).
Proof. intros s. reflexivity. Qed.

Lemma preserves_bind {X A B} (P : state Ω → X)
    (m : M (state Ω) event A) (k : A → M (state Ω) event B) :
  preserves P m → (∀ a, preserves P (k a)) → preserves P (bind m k).
Proof.
  intros Hm Hk s. rewrite final_bind. now rewrite Hk, Hm.
Qed.

Lemma preserves_if {X A} (P : state Ω → X) (b : bool)
    (m1 m2 : M (state Ω) event A) :
  preserves P m1 → preserves P m2 → preserves P (if b then m1 else m2).
Proof. now destruct b. Qed.

Lemma preserves_emit {X} (P : state Ω → X) (e : event) : preserves P (emit e).
Proof. intros s. reflexivity. Qed.

Lemma preserves_gets {X A} (P : state Ω → X) (f : state Ω → A) :
  preserves P (gets f).
Proof. intros s. reflexivity. Qed.

Create HintDb frame.
#[local] Hint Resolve preserves_ret preserves_bind preserves_if
  preserves_emit preserves_gets : frame.

Lemma handles_memory_clear c data :
  preserves handles (llama_memory_clear L c data).
Proof. intros s. reflexivity. Qed.

Lemma handles_tokenize v text len toks cap a p :
  preserves handles (llama_tokenize L v text len toks cap a p).
Proof. intros s. reflexivity. Qed.

Lemma handles_decode c batch : preserves handles (llama_decode L c batch).
Proof. intros s. reflexivity. Qed.

Lemma handles_chain_init : preserves handles (llama_sampler_chain_init L).
Proof. intros s. reflexivity. Qed.

Lemma handles_chain_add smpl stage :
  preserves handles (llama_sampler_chain_add L smpl stage).
Proof. intros s. reflexivity. Qed.

Lemma handles_sample smpl c idx :
  preserves handles (llama_sampler_sample L smpl c idx).
Proof. intros s. reflexivity. Qed.

Lemma handles_is_eog v tok : preserves handles (llama_vocab_is_eog L v tok).
Proof. intros s. reflexivity. Qed.

Lemma handles_piece v tok len lstrip special :
  preserves handles (llama_token_to_piece L v tok len lstrip special).
Proof. intros s. reflexivity. Qed.

Lemma handles_sampler_free smpl : preserves handles (llama_sampler_free L smpl).
Proof. intros s. reflexivity. Qed.

Lemma handles_abort : preserves handles (modify (with_fault (Ω := Ω) true)).
Proof. intros s. reflexivity. Qed.

Lemma pool_decode c batch : preserves pool (llama_decode L c batch).
Proof. intros s. reflexivity. Qed.

Lemma pool_chain_add smpl stage :
  preserves pool (llama_sampler_chain_add L smpl stage).
Proof. intros s. reflexivity. Qed.

Lemma pool_sample smpl c idx :
  preserves pool (llama_sampler_sample L smpl c idx).
Proof. intros s. reflexivity. Qed.

Lemma pool_is_eog v tok : preserves pool (llama_vocab_is_eog L v tok).
Proof. intros s. reflexivity. Qed.

Lemma pool_piece v tok len lstrip special :
  preserves pool (llama_token_to_piece L v tok len lstrip special).
Proof. intros s. reflexivity. Qed.

Lemma pool_memory_clear c data :
  preserves pool (llama_memory_clear L c data).
Proof. intros s. reflexivity. Qed.

Lemma pool_tokenize v text len toks cap a p :
  preserves pool (llama_tokenize L v text len toks cap a p).
Proof. intros s. reflexivity. Qed.

#[local] Hint Resolve handles_memory_clear handles_tokenize handles_decode
  handles_chain_init handles_chain_add handles_sample handles_is_eog
  handles_piece handles_sampler_free handles_abort
  pool_decode pool_chain_add pool_sample pool_is_eog pool_piece
  pool_memory_clear pool_tokenize : frame.

Lemma on_token_preserves {X} (P : state Ω → X) (f : string) :
  preserves P (on_token f).
Proof. intros s. reflexivity. Qed.

Lemma LOGE_preserves {X} (P : state Ω → X) (msg : string) :
  preserves P (LOGE msg).
Proof. intros s. reflexivity. Qed.

#[local] Hint Resolve on_token_preserves LOGE_preserves : frame.

(** The loop moves the engine and nothing else. *)
Lemma handles_decode_loop (k : nat) smpl c v :
  preserves handles (decode_loop L k smpl c v).
Proof.
  induction k as [|k IH]; unfold decode_loop; fold (decode_loop L);
    auto 20 with frame.
Qed.

Lemma pool_decode_loop (k : nat) smpl c v :
  preserves pool (decode_loop L k smpl c v).
Proof.
  induction k as [|k IH]; unfold decode_loop; fold (decode_loop L);
    auto 20 with frame.
Qed.

#[local] Hint Resolve handles_decode_loop pool_decode_loop : frame.

Lemma handles_translate_tokens c v n toks :
  preserves handles (translate_tokens L c v n toks).
Proof. unfold translate_tokens. auto 20 with frame. Qed.

Lemma handles_translate prompt :
  preserves handles (llama_bridge_translate L prompt).
Proof.
  unfold llama_bridge_translate.
  apply preserves_bind; [apply preserves_gets | intros c].
  apply preserves_bind; [apply preserves_gets | intros m].
  destruct c as [c|], m as [m|]; auto with frame.
  apply preserves_bind; [auto with frame | intros _].
  apply preserves_bind; [auto with frame | intros r].
  apply preserves_if; [|apply handles_translate_tokens].
  destruct (neg_int (fst r)); [|auto with frame].
  apply preserves_bind; [auto with frame | intros r'].
  apply handles_translate_tokens.
Qed.

(** ** translate_tokens *)

Lemma pool_eq (s s' : state Ω) :
  pool s' = pool s → samplers s' = samplers s ∧ next s' = next s.
Proof. unfold pool. intros H. now injection H. Qed.

(** The three ways the call can go once the token count is known: the count
    is not positive; the prefill fails; or a sampler chain is created, the
    loop runs, and the chain is freed. *)
Lemma translate_tokens_cases c v n toks (s : state Ω) :
  let r := translate_tokens L c v n toks s in
  let batch := llama_batch_get_one (resize (Z.to_nat n) toks) n in
  (n ≤ 0 ∧ r = (tt, s, [ELogE "Tokenization failed"]))
  ∨ (0 < n ∧ ∃ status, status ≠ 0 ∧
       trace r = [EDecode c batch status; ELogE "Prefill failed"] ∧
       pool (final r) = pool s)
  ∨ (0 < n ∧ ∃ body, loop_trace (next s) c 512 body ∧
       trace r = EDecode c batch 0 :: sampler_setup (next s)
                 ++ body ++ [ESamplerFree (next s)] ∧
       samplers (final r) = ({[next s]} ∪ samplers s) ∖ {[next s]}).
Proof.
  intros r batch. subst r. unfold translate_tokens.
  destruct (n <=? 0) eqn:Hn.
  { left. apply Z.leb_le in Hn. now split. }
  apply Z.leb_gt in Hn. right. fold batch.
  rewrite trace_bind, final_bind, trace_decode. cbn beta.
  set (status := value (llama_decode L c batch s)).
  set (s1 := final (llama_decode L c batch s)).
  assert (Hs1 : pool s1 = pool s) by apply pool_decode.
  destruct (pool_eq _ _ Hs1) as [Hsm Hnx].
  destruct (status =? 0) eqn:Hst; cbn [negb].
  - right. apply Z.eqb_eq in Hst. split; [exact Hn|].
    rewrite !trace_bind, !final_bind. cbn beta.
    change (value (llama_sampler_chain_init L s1)) with (next s1).
    set (s2 := final (llama_sampler_chain_init L s1)).
    set (smpl := next s1).
    set (s3 := final (llama_sampler_chain_add L smpl
                        (llama_sampler_init_top_p 90 1) s2)).
    set (s4 := final (llama_sampler_chain_add L smpl
                        (llama_sampler_init_temp 60) s3)).
    set (s5 := final (llama_sampler_chain_add L smpl
                        llama_sampler_init_dist_default_seed s4)).
    set (s6 := final (decode_loop L 512 smpl c v s5)).
    exists (trace (decode_loop L 512 smpl c v s5)).
    rewrite <- Hnx. fold smpl. split; [apply decode_loop_trace|]. split.
    + rewrite Hst. reflexivity.
    + change (samplers (final (llama_sampler_free L smpl s6)))
        with (samplers s6 ∖ {[smpl]}).
      assert (H6 : pool s6 = pool s2).
      { unfold s6. rewrite pool_decode_loop.
        unfold s5. rewrite pool_chain_add.
        unfold s4. rewrite pool_chain_add.
        unfold s3. now rewrite pool_chain_add. }
      destruct (pool_eq _ _ H6) as [-> _].
      change (samplers s2) with ({[smpl]} ∪ samplers s1).
      now rewrite Hsm.
  - left. apply Z.eqb_neq in Hst. split; [exact Hn|].
    exists status. split; [exact Hst|]. split; [reflexivity|].
    exact Hs1.
Qed.

(** ** llama_bridge_init *)

Ltac run_init :=
  unfold llama_bridge_init, llama_model_load_from_file, llama_init_from_model,
    llama_model_free, LOGE, LOGI, bind, gets, modify, emit, ret, value, final,
    trace;
  cbn -[bool_decide to_uint32].

Lemma init_load_failed path threads size (s : state Ω) :
  fst (eng_model_load L path 0 (eng s)) = false →
  let r := llama_bridge_init L path threads size s in
  value r = false
  ∧ trace r = [EModelLoad path 0 None; ELogE ("Failed to load: " ++ path)]
  ∧ g_model (final r) = None ∧ g_ctx (final r) = g_ctx s
  ∧ models (final r) = models s ∧ ctxs (final r) = ctxs s
  ∧ fault (final r) = fault s.
Proof.
  intros H r. subst r. run_init. rewrite H. cbn. now repeat split.
Qed.

(** The parameters the bridge creates the context with. *)
Lemma init_ctx_failed path threads size (s : state Ω) :
  let m := next s in
  let cp := {| n_ctx := to_uint32 size; n_threads := to_uint32 threads;
               n_threads_batch := to_uint32 threads |} in
  fst (eng_model_load L path 0 (eng s)) = true →
  fst (eng_init_from_model L m cp (snd (eng_model_load L path 0 (eng s))))
    = false →
  let r := llama_bridge_init L path threads size s in
  value r = false
  ∧ trace r = [EModelLoad path 0 (Some m); EInitFromModel m cp None;
               ELogE "Failed to create context"; EModelFree m]
  ∧ g_model (final r) = None ∧ g_ctx (final r) = None
  ∧ models (final r) = ({[m]} ∪ models s) ∖ {[m]}
  ∧ ctxs (final r) = ctxs s
  ∧ fault (final r) = fault s.
Proof.
  intros m cp H1 H2 r. subst r. run_init. rewrite H1.
  cbn -[bool_decide to_uint32]. fold m cp. rewrite H2.
  cbn -[bool_decide to_uint32]. repeat split.
  rewrite bool_decide_eq_true_2 by set_solver.
  cbn. now rewrite !orb_false_r.
Qed.

Lemma init_ok path threads size (s : state Ω) :
  let m := next s in
  let c := Pos.succ (next s) in
  let cp := {| n_ctx := to_uint32 size; n_threads := to_uint32 threads;
               n_threads_batch := to_uint32 threads |} in
  fst (eng_model_load L path 0 (eng s)) = true →
  fst (eng_init_from_model L m cp (snd (eng_model_load L path 0 (eng s))))
    = true →
  let r := llama_bridge_init L path threads size s in
  value r = true
  ∧ trace r = [EModelLoad path 0 (Some m); EInitFromModel m cp (Some c);
               ELogI "Model loaded. SME=%s | I8MM=%s | BF16=%s"]
  ∧ g_model (final r) = Some m ∧ g_ctx (final r) = Some c
  ∧ models (final r) = {[m]} ∪ models s
  ∧ ctxs (final r) = {[c]} ∪ ctxs s
  ∧ fault (final r) = fault s.
Proof.
  intros m c cp H1 H2 r. subst r. run_init. rewrite H1.
  cbn -[bool_decide to_uint32]. fold m cp. rewrite H2.
  cbn -[bool_decide to_uint32]. repeat split.
  rewrite bool_decide_eq_true_2 by set_solver.
  cbn. now rewrite !orb_false_r.
Qed.

(** An init returns true exactly when both engine calls succeeded. *)
Lemma init_true_inv path threads size (s : state Ω) :
  value (llama_bridge_init L path threads size s) = true →
  fst (eng_model_load L path 0 (eng s)) = true
  ∧ fst (eng_init_from_model L (next s)
           {| n_ctx := to_uint32 size; n_threads := to_uint32 threads;
              n_threads_batch := to_uint32 threads |}
           (snd (eng_model_load L path 0 (eng s)))) = true.
Proof.
  intros Hv.
  destruct (fst (eng_model_load L path 0 (eng s))) eqn:H1.
  - split; [reflexivity|].
    match goal with |- ?x = true => destruct x eqn:H2 end; [reflexivity|].
    destruct (init_ctx_failed path threads size s H1 H2) as [Hf _].
    congruence.
  - destruct (init_load_failed path threads size s H1) as [Hf _].
    congruence.
Qed.

(** ** llama_bridge_free *)

Ltac run_free :=
  unfold llama_bridge_free, llama_free, llama_model_free, bind, gets, modify,
    emit, ret, value, final, trace;
  cbn -[bool_decide].

Lemma free_clears (s : state Ω) :
  g_ctx (final (llama_bridge_free L s)) = None
  ∧ g_model (final (llama_bridge_free L s)) = None.
Proof.
  run_free. destruct (g_ctx s) eqn:Hc; cbn -[bool_decide];
    destruct (g_model s) eqn:Hm; cbn -[bool_decide]; split; congruence.
Qed.

Lemma llama_free_null (s : state Ω) :
  g_ctx s = None → g_model s = None → llama_bridge_free L s = (tt, s, []).
Proof.
  intros Hc Hm. run_free. rewrite Hc. cbn. rewrite Hm. reflexivity.
Qed.

Lemma free_safe (s : state Ω) :
  ptrs_live s = true → fault (final (llama_bridge_free L s)) = fault s.
Proof.
  unfold ptrs_live. intros H. apply andb_true_iff in H as [Hc Hm].
  run_free.
  destruct (g_ctx s) as [c|] eqn:Ec; cbn -[bool_decide];
    destruct (g_model s) as [m|] eqn:Em; cbn -[bool_decide];
    rewrite ?Em; cbn -[bool_decide];
    rewrite ?Hc, ?Hm; cbn; now rewrite ?orb_false_r.
Qed.

(** ** llama_bridge_translate *)

Lemma translate_null prompt (s : state Ω) :
  g_ctx s = None ∨ g_model s = None →
  llama_bridge_translate L prompt s = (tt, s, []).
Proof.
  intros H. unfold llama_bridge_translate, bind, gets. cbn.
  destruct H as [H | H]; rewrite H; [reflexivity|].
  now destruct (g_ctx s).
Qed.

Lemma trace_memory_clear c data (s : state Ω) :
  trace (llama_memory_clear L c data s) = [EMemoryClear c data].
Proof. reflexivity. Qed.

(** With both statics set, the call clears the memory, tokenizes, and then
    goes one of three ways on the count [n1] the tokenizer returned. *)
Lemma translate_live prompt (s : state Ω) (c m : handle) :
  g_ctx s = Some c → g_model s = Some m →
  let s1 := final (llama_memory_clear L c true s) in
  let t1 := llama_tokenize L m prompt (prompt_len prompt)
              (first_buffer prompt) (capacity (first_buffer prompt))
              true true s1 in
  let n1 := fst (value t1) in
  let r := llama_bridge_translate L prompt s in
  (0 ≤ n1 →
     let rt := translate_tokens L c m n1 (snd (value t1)) (final t1) in
     trace r = EMemoryClear c true :: trace t1 ++ trace rt
     ∧ final r = final rt)
  ∧ (n1 = INT_MIN →
     trace r = EMemoryClear c true :: trace t1
     ∧ final r = with_fault true (final t1))
  ∧ (n1 < 0 → n1 ≠ INT_MIN →
     let toks := resize (Z.to_nat (- n1)) (snd (value t1)) in
     let t2 := llama_tokenize L m prompt (prompt_len prompt) toks
                 (capacity toks) true true (final t1) in
     let rt := translate_tokens L c m (fst (value t2)) (snd (value t2))
                 (final t2) in
     trace r = EMemoryClear c true :: trace t1 ++ trace t2 ++ trace rt
     ∧ final r = final rt).
Proof.
  intros Hc Hm s1 t1 n1 r.
  assert (Hr : trace r = EMemoryClear c true :: trace t1 ++
                 trace ((if n1 <? 0 then
                           match neg_int n1 with
                           | None => modify (with_fault true)
                           | Some size =>
                               let toks := resize (Z.to_nat size)
                                             (snd (value t1)) in
                               let* r := llama_tokenize L m prompt
                                           (prompt_len prompt) toks
                                           (capacity toks) true true in
                               translate_tokens L c m (fst r) (snd r)
                           end
                         else translate_tokens L c m n1 (snd (value t1)))
                          (final t1))
               ∧ final r =
                 final ((if n1 <? 0 then
                           match neg_int n1 with
                           | None => modify (with_fault true)
                           | Some size =>
                               let toks := resize (Z.to_nat size)
                                             (snd (value t1)) in
                               let* r := llama_tokenize L m prompt
                                           (prompt_len prompt) toks
                                           (capacity toks) true true in
                               translate_tokens L c m (fst r) (snd r)
                           end
                         else translate_tokens L c m n1 (snd (value t1)))
                          (final t1))).
  { subst r. unfold llama_bridge_translate.
    rewrite !trace_bind, !final_bind. cbn [gets value final trace fst snd app].
    rewrite Hc, Hm.
    rewrite !trace_bind, !final_bind, trace_memory_clear.
    split; reflexivity. }
  destruct Hr as [Htr Hfin]. rewrite Htr, Hfin. clear Htr Hfin.
  repeat split.
  - destruct (n1 <? 0) eqn:E; [apply Z.ltb_lt in E; lia | reflexivity].
  - destruct (n1 <? 0) eqn:E; [apply Z.ltb_lt in E; lia | reflexivity].
  - destruct (n1 <? 0) eqn:E;
      [|apply Z.ltb_ge in E; change INT_MIN with (-2147483648) in H; lia].
    unfold neg_int. now rewrite H, Z.eqb_refl, app_nil_r.
  - destruct (n1 <? 0) eqn:E;
      [|apply Z.ltb_ge in E; change INT_MIN with (-2147483648) in H; lia].
    unfold neg_int. now rewrite H, Z.eqb_refl.
  - destruct (n1 <? 0) eqn:E; [|apply Z.ltb_ge in E; lia].
    unfold neg_int. apply Z.eqb_neq in H0. rewrite H0.
    cbn zeta. now rewrite trace_bind.
  - destruct (n1 <? 0) eqn:E; [|apply Z.ltb_ge in E; lia].
    unfold neg_int. apply Z.eqb_neq in H0. rewrite H0.
    cbn zeta. now rewrite final_bind.
Qed.

(** ** The outcomes of a translate call *)

Lemma trace_tokenize v text len toks cap a p (s : state Ω) :
  trace (llama_tokenize L v text len toks cap a p s)
  = [ETokenize text len cap a p
       (fst (value (llama_tokenize L v text len toks cap a p s)))].
Proof. reflexivity. Qed.

Lemma outcome_tokens c v n toks (s : state Ω) :
  let r := translate_tokens L c v n toks s in
  translate_outcome s (trace r) (final r).
Proof.
  intros r.
  destruct (translate_tokens_cases c v n toks s)
    as [[_ Hr] | [(_ & status & _ & Htr & Hp) | (_ & body & Hb & Htr & Hs)]];
    fold r in Hr || fold r in Htr.
  - left. rewrite Hr. split; [|reflexivity].
    repeat constructor.
  - left. rewrite Htr. destruct (pool_eq _ _ Hp) as [Hs _].
    split; [repeat constructor | exact Hs].
  - right.
    exists [EDecode c (llama_batch_get_one (resize (Z.to_nat n) toks) n) 0],
      body, c.
    split; [exact Htr|]. split; [repeat constructor|]. now split.
Qed.

(** A quiet prefix in front, and a start state with the same pool, do not
    change the outcome. *)
Lemma outcome_prefix (s s0 s' : state Ω) (pre tr : list event) :
  pool s0 = pool s →
  Forall (λ e, quiet_event e = true) pre →
  translate_outcome s0 tr s' →
  translate_outcome s (pre ++ tr) s'.
Proof.
  intros Hp Hpre H. destruct (pool_eq _ _ Hp) as [Hs Hn].
  destruct H as [[Hq Hs'] | (head & body & ctx & -> & Hh & Hb & Hs')].
  - left. split; [now apply Forall_app | congruence].
  - right. exists (pre ++ head), body, ctx.
    rewrite <- Hn, <- Hs, <- app_assoc. repeat split; try assumption.
    now apply Forall_app.
Qed.

Lemma outcome_translate prompt (s : state Ω) :
  let r := llama_bridge_translate L prompt s in
  translate_outcome s (trace r) (final r).
Proof.
  intros r.
  destruct (g_ctx s) as [c|] eqn:Hc; [destruct (g_model s) as [m|] eqn:Hm|].
  - pose proof (translate_live prompt s c m Hc Hm) as H. cbn zeta in H.
    fold r in H. destruct H as (Hfit & Habort & Hretry).
    set (s1 := final (llama_memory_clear L c true s)) in *.
    set (t1 := llama_tokenize L m prompt (prompt_len prompt)
                 (first_buffer prompt) (capacity (first_buffer prompt))
                 true true s1) in *.
    assert (Hp1 : pool (final t1) = pool s).
    { unfold t1. rewrite pool_tokenize. apply pool_memory_clear. }
    destruct (Z_lt_ge_dec (fst (value t1)) 0) as [Hneg | Hpos].
    + destruct (Z.eq_dec (fst (value t1)) INT_MIN) as [Hmin | Hmin].
      * destruct (Habort Hmin) as [-> ->]. left.
        unfold t1 at 1. rewrite trace_tokenize. split; [repeat constructor|].
        destruct (pool_eq _ _ Hp1) as [Hs _]. exact Hs.
      * destruct (Hretry Hneg Hmin) as [-> ->].
        set (toks := resize _ _).
        set (t2 := llama_tokenize L m prompt (prompt_len prompt) toks
                     (capacity toks) true true (final t1)).
        rewrite app_comm_cons, app_assoc.
        apply (outcome_prefix s (final t2)); [| |apply outcome_tokens].
        -- unfold t2. now rewrite pool_tokenize.
        -- unfold t1 at 1, t2. rewrite !trace_tokenize. repeat constructor.
    + destruct (Hfit ltac:(lia)) as [-> ->].
      rewrite app_comm_cons.
      apply (outcome_prefix s (final t1)); [exact Hp1| |apply outcome_tokens].
      unfold t1 at 1. rewrite trace_tokenize. repeat constructor.
  - subst r. rewrite translate_null by now right.
    left. split; [constructor | reflexivity].
  - subst r. rewrite translate_null by now left.
    left. split; [constructor | reflexivity].
Qed.

(** ** What the parts of an outcome hold *)

Lemma quiet_fragments (l : list event) :
  Forall (λ e, quiet_event e = true) l → fragments l = [].
Proof.
  induction 1 as [|e l He _ IH]; [reflexivity|].
  destruct e; try discriminate He; exact IH.
Qed.

Lemma quiet_samples (l : list event) :
  Forall (λ e, quiet_event e = true) l → sample_calls l = 0%nat.
Proof.
  induction 1 as [|e l He _ IH]; [reflexivity|].
  destruct e; try discriminate He; exact IH.
Qed.

Lemma quiet_no_eog (l : list event) tok :
  Forall (λ e, quiet_event e = true) l →
  Forall (λ e, e ≠ EVocabIsEog tok true) l.
Proof.
  induction 1 as [|e l He _ IH]; constructor; [|exact IH].
  intros ->. discriminate He.
Qed.

Lemma quiet_no_init (l : list event) x :
  Forall (λ e, quiet_event e = true) l → ¬ In (ESamplerChainInit x) l.
Proof.
  intros H Hin. rewrite List.Forall_forall in H. apply H in Hin.
  discriminate Hin.
Qed.

Lemma setup_no_eog smpl tok :
  Forall (λ e, e ≠ EVocabIsEog tok true) (sampler_setup smpl).
Proof. repeat (constructor; [discriminate|]). constructor. Qed.

Lemma setup_init smpl x :
  In (ESamplerChainInit x) (sampler_setup smpl) → x = smpl.
Proof.
  cbn. intros [H | [H | [H | [H | []]]]]; try discriminate H.
  now injection H.
Qed.

(** ** Consequences for every translate call *)

Lemma translate_samples_le prompt (s : state Ω) :
  (sample_calls (trace (llama_bridge_translate L prompt s)) ≤ 512)%nat.
Proof.
  destruct (outcome_translate prompt s)
    as [[Hq _] | (head & body & ctx & -> & Hh & Hb & _)].
  - rewrite (quiet_samples _ Hq). lia.
  - rewrite !sample_calls_app, (quiet_samples _ Hh). cbn.
    pose proof (loop_samples_le _ _ _ _ Hb). lia.
Qed.

Lemma translate_fragments_le prompt (s : state Ω) :
  (length (fragments (trace (llama_bridge_translate L prompt s))) ≤ 512)%nat.
Proof.
  destruct (outcome_translate prompt s)
    as [[Hq _] | (head & body & ctx & -> & Hh & Hb & _)].
  - rewrite (quiet_fragments _ Hq). cbn. lia.
  - rewrite !fragments_app, (quiet_fragments _ Hh), !length_app. cbn.
    pose proof (loop_fragments_le _ _ _ _ Hb). lia.
Qed.

Lemma translate_eog_last prompt (s : state Ω) pre tok post :
  trace (llama_bridge_translate L prompt s)
    = pre ++ EVocabIsEog tok true :: post →
  post = [ESamplerFree (next s)].
Proof.
  intros Heq.
  destruct (outcome_translate prompt s)
    as [[Hq _] | (head & body & ctx & Htr & Hh & Hb & _)].
  - exfalso. rewrite Heq in Hq. apply (quiet_no_eog _ tok) in Hq.
    apply Forall_app in Hq as [_ Hq]. inversion Hq; congruence.
  - rewrite Htr in Heq.
    apply split_past in Heq; [|now apply quiet_no_eog].
    destruct Heq as (pre1 & _ & Heq).
    apply split_past in Heq; [|apply setup_no_eog].
    destruct Heq as (pre2 & _ & Heq).
    apply split_before_last in Heq; [|discriminate].
    destruct Heq as (post' & -> & Hbody).
    now rewrite (loop_eog_last _ _ _ _ Hb _ _ _ Hbody).
Qed.

Lemma translate_frees_sampler prompt (s : state Ω) smpl :
  In (ESamplerChainInit smpl) (trace (llama_bridge_translate L prompt s)) →
  smpl = next s
  ∧ (∃ before, trace (llama_bridge_translate L prompt s)
               = before ++ [ESamplerFree smpl])
  ∧ smpl ∉ samplers (final (llama_bridge_translate L prompt s)).
Proof.
  intros Hin.
  destruct (outcome_translate prompt s)
    as [[Hq _] | (head & body & ctx & Htr & Hh & Hb & Hs)].
  - now apply (quiet_no_init _ smpl) in Hq.
  - rewrite Htr in Hin. rewrite !in_app_iff in Hin.
    assert (smpl = next s) as ->.
    { destruct Hin as [Hin | [Hin | [Hin | Hin]]].
      - now apply (quiet_no_init _ smpl) in Hh.
      - now apply setup_init.
      - now apply (loop_no_init _ _ _ _ smpl) in Hb.
      - destruct Hin as [Hin | []]. discriminate Hin. }
    split; [reflexivity|]. split.
    + exists (head ++ sampler_setup (next s) ++ body).
      rewrite Htr, <- !app_assoc. reflexivity.
    + rewrite Hs. intros Hx. apply elem_of_difference in Hx as [_ Hx].
      apply Hx. now apply elem_of_singleton.
Qed.

Lemma translate_samplers_subset prompt (s : state Ω) :
  samplers (final (llama_bridge_translate L prompt s)) ⊆ samplers s.
Proof.
  destruct (outcome_translate prompt s)
    as [[_ Hs] | (head & body & ctx & _ & _ & _ & Hs)];
    rewrite Hs; [reflexivity|].
  intros x Hx. apply elem_of_difference in Hx as [Hx Hne].
  apply elem_of_union in Hx as [Hx | Hx]; [contradiction | exact Hx].
Qed.

(** ** The tokenizer retry *)

Lemma resize_length (n : nat) (v : list llama_token) :
  length (resize n v) = n.
Proof.
  unfold resize. rewrite length_app, length_firstn, repeat_length. lia.
Qed.

Lemma to_int32_small (z : Z) : 0 ≤ z < 2 ^ 31 → to_int32 z = z.
Proof.
  intros H. unfold to_int32. rewrite Z.mod_small; lia.
Qed.

Lemma capacity_resize (n : Z) (v : list llama_token) :
  INT_MIN < n < 0 → capacity (resize (Z.to_nat (- n)) v) = - n.
Proof.
  change INT_MIN with (- 2 ^ 31). intros H. unfold capacity.
  rewrite resize_length, Z2Nat.id by lia. apply to_int32_small. lia.
Qed.

Lemma tokens_no_tokenize c v n toks (s : state Ω) :
  tokenize_calls (trace (translate_tokens L c v n toks s)) = 0%nat.
Proof.
  destruct (translate_tokens_cases c v n toks s)
    as [[_ ->] | [(_ & status & _ & -> & _) | (_ & body & Hb & -> & _)]];
    try reflexivity.
  cbn. rewrite tokenize_calls_app, (loop_tokenize _ _ _ _ Hb). reflexivity.
Qed.

Lemma tokens_failed c v n toks (s : state Ω) :
  n ≤ 0 →
  translate_tokens L c v n toks s = (tt, s, [ELogE "Tokenization failed"]).
Proof.
  intros H. unfold translate_tokens.
  destruct (n <=? 0) eqn:E; [reflexivity | apply Z.leb_gt in E; lia].
Qed.

(** A translation with both statics set begins by clearing the memory. *)
Lemma translate_starts prompt (s : state Ω) (c m : handle) :
  g_ctx s = Some c → g_model s = Some m →
  ∃ rest, trace (llama_bridge_translate L prompt s)
          = EMemoryClear c true :: rest.
Proof.
  intros Hc Hm.
  pose proof (translate_live prompt s c m Hc Hm) as H. cbn zeta in H.
  destruct H as (Hfit & Habort & Hretry).
  set (n1 := fst (value (llama_tokenize L m prompt (prompt_len prompt)
                           (first_buffer prompt)
                           (capacity (first_buffer prompt)) true true
                           (final (llama_memory_clear L c true s))))) in *.
  destruct (Z_lt_ge_dec n1 0) as [Hneg | Hpos].
  - destruct (Z.eq_dec n1 INT_MIN) as [Hmin | Hmin].
    + destruct (Habort Hmin) as [-> _]. eexists. reflexivity.
    + destruct (Hretry Hneg Hmin) as [-> _]. eexists. reflexivity.
  - destruct (Hfit ltac:(lia)) as [-> _]. eexists. reflexivity.
Qed.

(** ** Re-initialization *)

(** An init that succeeds on a loaded manager frees nothing: the model and
    the context it found stay live, beside the new ones. *)
Lemma reinit_keeps_prior path threads size (s : state Ω) (m c : handle) :
  m ∈ models s → c ∈ ctxs s →
  let r := llama_bridge_init L path threads size s in
  value r = true →
  m ∈ models (final r) ∧ c ∈ ctxs (final r)
  ∧ g_model (final r) = Some (next s)
  ∧ g_ctx (final r) = Some (Pos.succ (next s))
  ∧ ¬ In (EModelFree m) (trace r) ∧ ¬ In (EFree c) (trace r).
Proof.
  intros Hm Hc r Hv.
  destruct (init_true_inv path threads size s Hv) as [H1 H2].
  destruct (init_ok path threads size s H1 H2)
    as (_ & Htr & Hgm & Hgc & Hms & Hcs & _).
  fold r in Htr, Hgm, Hgc, Hms, Hcs.
  rewrite Htr, Hgm, Hgc, Hms, Hcs. repeat split.
  - apply elem_of_union. now right.
  - apply elem_of_union. now right.
  - cbn. intuition discriminate.
  - cbn. intuition discriminate.
Qed.

(** The new model is another object than the one that was live. *)
Lemma fresh_is_new (s : state Ω) (m : handle) :
  next_fresh s = true → m ∈ models s → m ≠ next s.
Proof.
  unfold next_fresh. intros H Hm. apply bool_decide_eq_true_1 in H.
  specialize (H m). cbn beta in H.
  assert (m < next s)%positive as Hlt.
  { apply H. apply elem_of_union. left. apply elem_of_union. now left. }
  lia.
Qed.

(** ** The statics keep pointing to live objects *)

Lemma ptrs_live_translate prompt (s : state Ω) :
  ptrs_live (final (llama_bridge_translate L prompt s)) = ptrs_live s.
Proof.
  pose proof (handles_translate prompt s) as H. unfold handles in H.
  injection H as Hm Hc _ Hms Hcs. unfold ptrs_live.
  now rewrite Hm, Hc, Hms, Hcs.
Qed.

Lemma ptrs_live_free (s : state Ω) :
  ptrs_live (final (llama_bridge_free L s)) = true.
Proof.
  destruct (free_clears s) as [Hc Hm]. unfold ptrs_live.
  now rewrite Hc, Hm.
Qed.

Lemma ptrs_live_init path threads size (s : state Ω) :
  ptrs_live s = true →
  ptrs_live (final (llama_bridge_init L path threads size s)) = true.
Proof.
  intros Hs. unfold ptrs_live in *.
  destruct (fst (eng_model_load L path 0 (eng s))) eqn:H1.
  - match goal with
    | |- context [llama_bridge_init L path threads ?sz s] =>
        destruct (fst (eng_init_from_model L (next s)
                         {| n_ctx := to_uint32 sz;
                            n_threads := to_uint32 threads;
                            n_threads_batch := to_uint32 threads |}
                         (snd (eng_model_load L path 0 (eng s))))) eqn:H2
    end.
    + destruct (init_ok path threads size s H1 H2)
        as (_ & _ & -> & -> & -> & -> & _).
      apply andb_true_iff. split; apply bool_decide_eq_true_2;
        apply elem_of_union; left; now apply elem_of_singleton.
    + destruct (init_ctx_failed path threads size s H1 H2)
        as (_ & _ & -> & -> & _). reflexivity.
  - destruct (init_load_failed path threads size s H1)
      as (_ & _ & -> & -> & _ & -> & _).
    apply andb_true_iff in Hs as [Hs _]. now rewrite Hs.
Qed.

End Facts.
End LlamaFacts.

(** * The specification's claims *)

Import Examples.

(** C2.  A run call with no handle is a no-op: [whisper_bridge_transcribe]
    with a null [g_ctx] returns the empty string, and
    [llama_bridge_translate] with a null [g_ctx] or a null [g_model] invokes
    the callback zero times; both leave the whole state as it was, fault flag
    included, and make no native call. *)
Theorem run_without_handle_is_noop
    {Ω Pcm Ω' : Type} (W : Whisper.engine Ω Pcm) (L : Llama.engine Ω')
    (pcm : Pcm) (n_samples : Z) (lang prompt : string)
    (ws : Whisper.state Ω) (ls : Llama.state Ω') :
  Whisper.g_ctx ws = None →
  Llama.g_ctx ls = None ∨ Llama.g_model ls = None →
  Whisper.whisper_bridge_transcribe W pcm n_samples lang ws
    = (EmptyString, ws, [])
  ∧ Llama.llama_bridge_translate L prompt ls = (tt, ls, [])
  ∧ Llama.fragments (trace (Llama.llama_bridge_translate L prompt ls)) = [].
Proof.
  intros Hw Hl. split; [|split].
  - now apply WhisperFacts.transcribe_null.
  - now apply LlamaFacts.translate_null.
  - now rewrite LlamaFacts.translate_null.
Qed.

Lemma run_without_handle_is_noop_witness :
  Whisper.whisper_bridge_transcribe Whisper.mock [0; 0] 2 "en" w0
    = (EmptyString, w0, [])
  ∧ Llama.llama_bridge_translate Llama.mock "abc" l0 = (tt, l0, [])
  ∧ Llama.fragments (trace (Llama.llama_bridge_translate Llama.mock "abc" l0))
    = [].
Proof.
  apply (run_without_handle_is_noop Whisper.mock Llama.mock [0; 0] 2 "en"
           "abc" w0 l0).
  - reflexivity.
  - left. reflexivity.
Defined.

(** C3.  When [llama_bridge_init] loads the model but fails to create the
    context, it frees the model it just loaded (the last native call it
    makes), returns false, and leaves both statics null; the fresh model is
    not live afterwards, and freeing it was no fault. *)
Theorem init_frees_model_when_context_fails
    {Ω : Type} (L : Llama.engine Ω) (path : string) (threads size : Z)
    (s : Llama.state Ω) :
  let m := Llama.next s in
  let cp := {| Llama.n_ctx := to_uint32 size;
               Llama.n_threads := to_uint32 threads;
               Llama.n_threads_batch := to_uint32 threads |} in
  fst (Llama.eng_model_load L path 0 (Llama.eng s)) = true →
  fst (Llama.eng_init_from_model L m cp
         (snd (Llama.eng_model_load L path 0 (Llama.eng s)))) = false →
  let r := Llama.llama_bridge_init L path threads size s in
  value r = false
  ∧ trace r = [Llama.EModelLoad path 0 (Some m);
               Llama.EInitFromModel m cp None;
               Llama.ELogE "Failed to create context";
               Llama.EModelFree m]
  ∧ Llama.g_model (final r) = None
  ∧ Llama.g_ctx (final r) = None
  ∧ (m ∉ Llama.models (final r))
  ∧ Llama.fault (final r) = Llama.fault s.
Proof.
  intros m cp H1 H2 r.
  destruct (LlamaFacts.init_ctx_failed L path threads size s H1 H2)
    as (Hv & Htr & Hm & Hc & Hms & _ & Hf).
  fold r in Hv, Htr, Hm, Hc, Hms, Hf.
  repeat split; try assumption.
  rewrite Hms. intros Hin. apply elem_of_difference in Hin as [_ Hin].
  apply Hin. now apply elem_of_singleton.
Qed.

Lemma init_frees_model_when_context_fails_witness :
  let r := Llama.llama_bridge_init Llama.mock "model.gguf" 4 0 l1 in
  value r = false
  ∧ trace r = [Llama.EModelLoad "model.gguf" 0 (Some 3%positive);
               Llama.EInitFromModel 3%positive
                 {| Llama.n_ctx := to_uint32 0;
                    Llama.n_threads := to_uint32 4;
                    Llama.n_threads_batch := to_uint32 4 |} None;
               Llama.ELogE "Failed to create context";
               Llama.EModelFree 3%positive]
  ∧ Llama.g_model (final r) = None
  ∧ Llama.g_ctx (final r) = None
  ∧ (3%positive ∉ Llama.models (final r))
  ∧ Llama.fault (final r) = Llama.fault l1.
Proof.
  apply (init_frees_model_when_context_fails Llama.mock "model.gguf" 4 0 l1).
  - reflexivity.
  - reflexivity.
Defined.

(** C4.  Every [llama_bridge_translate] call draws from the sampler at most
    512 times and invokes the callback at most 512 times; and when a sampled
    token is an end-of-generation token, the only thing the call still does
    is free its sampler chain: no further draw, no further callback. *)
Theorem translate_stops_at_eog_or_cap
    {Ω : Type} (L : Llama.engine Ω) (prompt : string) (s : Llama.state Ω) :
  let tr := trace (Llama.llama_bridge_translate L prompt s) in
  (Llama.sample_calls tr ≤ 512)%nat
  ∧ (length (Llama.fragments tr) ≤ 512)%nat
  ∧ ∀ pre tok post,
      tr = pre ++ Llama.EVocabIsEog tok true :: post →
      post = [Llama.ESamplerFree (Llama.next s)]
      ∧ Llama.fragments post = []
      ∧ Llama.sample_calls post = 0%nat.
Proof.
  intros tr. split; [|split].
  - apply LlamaFacts.translate_samples_le.
  - apply LlamaFacts.translate_fragments_le.
  - intros pre tok post Heq.
    apply LlamaFacts.translate_eog_last in Heq. subst post.
    repeat split.
Qed.

Lemma translate_stops_at_eog_or_cap_witness :
  [Llama.ESamplerFree 3%positive] = [Llama.ESamplerFree (Llama.next l1)]
  ∧ Llama.fragments [Llama.ESamplerFree 3%positive] = []
  ∧ Llama.sample_calls [Llama.ESamplerFree 3%positive] = 0%nat.
Proof.
  apply (proj2 (proj2 (translate_stops_at_eog_or_cap Llama.mock "abc" l1))
           (firstn 17 (trace (Llama.llama_bridge_translate Llama.mock "abc" l1)))
           5).
  vm_compute. reflexivity.
Defined.

(** C5.  When a [llama_bridge_translate] call creates a sampler chain, the
    last thing the call does is free that chain, whichever way the loop
    ended, and the chain is not live once the call has returned; no call
    leaves a sampler chain live that was not live before it. *)
Theorem translate_frees_its_sampler
    {Ω : Type} (L : Llama.engine Ω) (prompt : string) (s : Llama.state Ω)
    (smpl : handle) :
  let r := Llama.llama_bridge_translate L prompt s in
  In (Llama.ESamplerChainInit smpl) (trace r) →
  (∃ before, trace r = before ++ [Llama.ESamplerFree smpl])
  ∧ (smpl ∉ Llama.samplers (final r))
  ∧ Llama.samplers (final r) ⊆ Llama.samplers s.
Proof.
  intros r Hin.
  destruct (LlamaFacts.translate_frees_sampler L prompt s smpl Hin)
    as (_ & Hlast & Hdead).
  split; [exact Hlast|]. split; [exact Hdead|].
  apply LlamaFacts.translate_samplers_subset.
Qed.

Lemma translate_frees_its_sampler_witness :
  let r := Llama.llama_bridge_translate Llama.mock "a" l1 in
  (∃ before, trace r = before ++ [Llama.ESamplerFree 3%positive])
  ∧ (3%positive ∉ Llama.samplers (final r))
  ∧ Llama.samplers (final r) ⊆ Llama.samplers l1.
Proof.
  apply (translate_frees_its_sampler Llama.mock "a" l1 3%positive).
  vm_compute. right. right. right. left. reflexivity.
Defined.

(** C6.  With both statics set, when the first tokenizer call answers a
    negative count [n1] (the required size, negated), the buffer is resized
    to exactly [- n1] tokens and the tokenizer is called a second time with
    that capacity; the call makes no third tokenizer call; and when the
    second count is zero or negative the call logs the failure and returns
    with zero callback invocations. *)
Theorem translate_retries_tokenize_once
    {Ω : Type} (L : Llama.engine Ω) (prompt : string) (s : Llama.state Ω)
    (c m : handle) (n1 : Z) (toks1 : list Llama.llama_token) :
  Llama.g_ctx s = Some c →
  Llama.g_model s = Some m →
  let ω := Llama.eng_memory_clear L c true (Llama.eng s) in
  let len := Llama.prompt_len prompt in
  let cap1 := Llama.capacity (Llama.first_buffer prompt) in
  Llama.eng_tokenize L ω m prompt len (Llama.first_buffer prompt) cap1
    true true = (n1, toks1) →
  INT_MIN < n1 < 0 →
  let toks2 := Llama.resize (Z.to_nat (- n1)) toks1 in
  let n2 := fst (Llama.eng_tokenize L ω m prompt len toks2 (- n1)
                   true true) in
  let r := Llama.llama_bridge_translate L prompt s in
  length toks2 = Z.to_nat (- n1)
  ∧ (∃ rest,
       trace r = [Llama.EMemoryClear c true;
                  Llama.ETokenize prompt len cap1 true true n1;
                  Llama.ETokenize prompt len (- n1) true true n2] ++ rest
       ∧ Llama.tokenize_calls rest = 0%nat)
  ∧ Llama.tokenize_calls (trace r) = 2%nat
  ∧ (n2 ≤ 0 →
     trace r = [Llama.EMemoryClear c true;
                Llama.ETokenize prompt len cap1 true true n1;
                Llama.ETokenize prompt len (- n1) true true n2;
                Llama.ELogE "Tokenization failed"]
     ∧ Llama.fragments (trace r) = []).
Proof.
  intros Hc Hm ω len cap1 Htok Hn1 toks2 n2 r.
  pose proof (LlamaFacts.translate_live L prompt s c m Hc Hm) as H.
  cbn zeta in H. destruct H as (_ & _ & Hretry).
  set (s1 := final (Llama.llama_memory_clear L c true s)) in *.
  set (t1 := Llama.llama_tokenize L m prompt (Llama.prompt_len prompt)
               (Llama.first_buffer prompt)
               (Llama.capacity (Llama.first_buffer prompt)) true true s1) in *.
  assert (Hv1 : value t1 = (n1, toks1)) by exact Htok.
  rewrite Hv1 in Hretry. cbn [fst snd] in Hretry.
  assert (Hmin : n1 ≠ INT_MIN) by lia.
  destruct (Hretry (proj2 Hn1) Hmin) as [Htr _]. clear Hretry.
  rewrite (LlamaFacts.capacity_resize n1 toks1 Hn1) in Htr.
  fold toks2 r in Htr.
  set (t2 := Llama.llama_tokenize L m prompt (Llama.prompt_len prompt) toks2
               (- n1) true true (final t1)) in *.
  assert (Hv2 : fst (value t2) = n2) by reflexivity.
  assert (Ht1 : trace t1 = [Llama.ETokenize prompt len cap1 true true n1]).
  { unfold t1. rewrite LlamaFacts.trace_tokenize. fold t1. now rewrite Hv1. }
  assert (Ht2 : trace t2 = [Llama.ETokenize prompt len (- n1) true true n2]).
  { unfold t2. rewrite LlamaFacts.trace_tokenize. fold t2. now rewrite Hv2. }
  rewrite Ht1, Ht2, Hv2 in Htr. cbn [app] in Htr.
  split; [apply LlamaFacts.resize_length|]. split; [|split].
  - eexists. split; [exact Htr|]. apply LlamaFacts.tokens_no_tokenize.
  - rewrite Htr. cbn. now rewrite LlamaFacts.tokens_no_tokenize.
  - intros Hn2. rewrite Htr.
    rewrite (LlamaFacts.tokens_failed L c m n2 _ _ Hn2). now split.
Qed.

Lemma translate_retries_tokenize_once_witness :
  let r := Llama.llama_bridge_translate Llama.mock "?" l1 in
  length (Llama.resize (Z.to_nat (- -66)) (Llama.first_buffer "?"))
    = Z.to_nat (- -66)
  ∧ (∃ rest,
       trace r = [Llama.EMemoryClear 2%positive true;
                  Llama.ETokenize "?" 1 65 true true (-66);
                  Llama.ETokenize "?" 1 (- -66) true true (-67)] ++ rest
       ∧ Llama.tokenize_calls rest = 0%nat)
  ∧ Llama.tokenize_calls (trace r) = 2%nat
  ∧ (-67 ≤ 0 →
     trace r = [Llama.EMemoryClear 2%positive true;
                Llama.ETokenize "?" 1 65 true true (-66);
                Llama.ETokenize "?" 1 (- -66) true true (-67);
                Llama.ELogE "Tokenization failed"]
     ∧ Llama.fragments (trace r) = []).
Proof.
  apply (translate_retries_tokenize_once Llama.mock "?" l1 2%positive
           1%positive (-66) (Llama.first_buffer "?")).
  - reflexivity.
  - reflexivity.
  - reflexivity.
  - unfold INT_MIN. lia.
Defined.

(** C7.  A transcription whose engine pass fails returns the empty string
    and leaves [g_ctx], the thread count and the live contexts as they were;
    every translation, however it ends (tokenization failure, prefill
    failure, a step decode that fails, or a full run), leaves [g_model],
    [g_ctx], the thread count and the live models and contexts as they were.
    So the next run call gets past its null check: it runs the engine on the
    same handle. *)
Theorem failed_run_keeps_handles
    {Ω Pcm Ω' : Type} (W : Whisper.engine Ω Pcm) (L : Llama.engine Ω')
    (pcm : Pcm) (n_samples : Z) (lang prompt : string)
    (ws : Whisper.state Ω) (ls : Llama.state Ω') (h c m : handle) :
  Whisper.g_ctx ws = Some h →
  fst (Whisper.eng_full W h (Whisper.full_params lang (Whisper.g_threads ws))
         pcm n_samples (Whisper.eng ws)) ≠ 0 →
  Llama.g_ctx ls = Some c →
  Llama.g_model ls = Some m →
  let rw := Whisper.whisper_bridge_transcribe W pcm n_samples lang ws in
  let rl := Llama.llama_bridge_translate L prompt ls in
  (value rw = EmptyString
   ∧ Whisper.g_ctx (final rw) = Some h
   ∧ Whisper.g_threads (final rw) = Whisper.g_threads ws
   ∧ Whisper.live (final rw) = Whisper.live ws
   ∧ ∀ pcm' n' lang', ∃ status rest,
       trace (Whisper.whisper_bridge_transcribe W pcm' n' lang' (final rw))
       = Whisper.EFull h (Whisper.full_params lang' (Whisper.g_threads ws))
           n' status :: rest)
  ∧ (Llama.handles (final rl) = Llama.handles ls
     ∧ Llama.g_ctx (final rl) = Some c
     ∧ Llama.g_model (final rl) = Some m
     ∧ ∀ prompt', ∃ rest,
         trace (Llama.llama_bridge_translate L prompt' (final rl))
         = Llama.EMemoryClear c true :: rest).
Proof.
  intros Hh Hst Hc Hm rw rl. split.
  - subst rw. rewrite (WhisperFacts.transcribe_failed W _ _ _ _ _ Hh Hst).
    cbn [value final fst snd Whisper.after_full Whisper.g_ctx
         Whisper.g_threads Whisper.live].
    repeat split; try assumption.
    intros pcm' n' lang'.
    apply (WhisperFacts.transcribe_starts W pcm' n' lang'
             (Whisper.after_full W h _ pcm n_samples ws) h Hh).
  - pose proof (LlamaFacts.handles_translate L prompt ls) as Hk.
    fold rl in Hk. unfold Llama.handles in Hk.
    injection Hk as Hgm Hgc Hth Hms Hcs.
    assert (Hc' : Llama.g_ctx (final rl) = Some c) by congruence.
    assert (Hm' : Llama.g_model (final rl) = Some m) by congruence.
    repeat split; try assumption.
    + unfold Llama.handles. congruence.
    + intros prompt'.
      exact (LlamaFacts.translate_starts L prompt' _ c m Hc' Hm').
Qed.

Lemma failed_run_keeps_handles_witness :
  let rw := Whisper.whisper_bridge_transcribe Whisper.mock [] 0 "en" w1 in
  let rl := Llama.llama_bridge_translate Llama.mock "ab" l1 in
  (value rw = EmptyString
   ∧ Whisper.g_ctx (final rw) = Some 1%positive
   ∧ Whisper.g_threads (final rw) = Whisper.g_threads w1
   ∧ Whisper.live (final rw) = Whisper.live w1
   ∧ ∀ pcm' n' lang', ∃ status rest,
       trace (Whisper.whisper_bridge_transcribe Whisper.mock pcm' n' lang'
                (final rw))
       = Whisper.EFull 1%positive
           (Whisper.full_params lang' (Whisper.g_threads w1)) n' status
         :: rest)
  ∧ (Llama.handles (final rl) = Llama.handles l1
     ∧ Llama.g_ctx (final rl) = Some 2%positive
     ∧ Llama.g_model (final rl) = Some 1%positive
     ∧ ∀ prompt', ∃ rest,
         trace (Llama.llama_bridge_translate Llama.mock prompt' (final rl))
         = Llama.EMemoryClear 2%positive true :: rest).
Proof.
  apply (failed_run_keeps_handles Whisper.mock Llama.mock [] 0 "en" "ab"
           w1 l1 1%positive 2%positive 1%positive).
  - reflexivity.
  - vm_compute. discriminate.
  - reflexivity.
  - reflexivity.
Defined.

(** C8.  After an engine pass that succeeds, [whisper_bridge_transcribe]
    returns the engine's transcript (its non-null segment texts, joined)
    without its first character when that character is a space, and the
    transcript itself when it does not begin with a space, the empty
    transcript included. *)
Theorem transcribe_strips_one_leading_space
    {Ω Pcm : Type} (W : Whisper.engine Ω Pcm) (pcm : Pcm) (n_samples : Z)
    (lang : string) (s : Whisper.state Ω) (h : handle) :
  Whisper.g_ctx s = Some h →
  fst (Whisper.eng_full W h (Whisper.full_params lang (Whisper.g_threads s))
         pcm n_samples (Whisper.eng s)) = 0 →
  let r := Whisper.whisper_bridge_transcribe W pcm n_samples lang s in
  let text := Whisper.transcript W (Whisper.eng (final r)) h in
  (∀ rest, text = String " " rest → value r = rest)
  ∧ ((∀ rest, text ≠ String " " rest) → value r = text)
  ∧ (text = EmptyString → value r = EmptyString).
Proof.
  intros Hh Hst r text. subst text r.
  rewrite (WhisperFacts.transcribe_passed W _ _ _ _ _ Hh Hst).
  cbn [value final fst snd Whisper.after_full Whisper.eng].
  split; [|split].
  - intros rest ->. apply WhisperFacts.strip_leading_space_space.
  - apply WhisperFacts.strip_leading_space_other.
  - intros ->. reflexivity.
Qed.

Lemma transcribe_strips_one_leading_space_witness :
  value (Whisper.whisper_bridge_transcribe Whisper.mock [0; 0] 2 "en" w1)
  = "hello world"%string.
Proof.
  apply (proj1 (transcribe_strips_one_leading_space Whisper.mock [0; 0] 2
                  "en" w1 1%positive eq_refl eq_refl) "hello world"%string).
  reflexivity.
Defined.

(** C9.  From any state, for both managers, the first free leaves the
    statics null and a second free right after it does nothing at all: no
    native call, and the state (fault flag included) is the one the first
    free left.  From a state whose statics point to live objects, the two
    frees raise no fault. *)
Theorem free_twice_is_free_once
    {Ω Pcm Ω' : Type} (W : Whisper.engine Ω Pcm) (L : Llama.engine Ω')
    (ws : Whisper.state Ω) (ls : Llama.state Ω') :
  let w1 := Whisper.whisper_bridge_free W ws in
  let w2 := Whisper.whisper_bridge_free W (final w1) in
  let f1 := Llama.llama_bridge_free L ls in
  let f2 := Llama.llama_bridge_free L (final f1) in
  (Whisper.g_ctx (final w1) = None ∧ w2 = (tt, final w1, []))
  ∧ (Llama.g_ctx (final f1) = None ∧ Llama.g_model (final f1) = None
     ∧ f2 = (tt, final f1, []))
  ∧ (Whisper.ptr_live ws = true →
     Whisper.fault (final w2) = Whisper.fault ws)
  ∧ (Llama.ptrs_live ls = true → Llama.fault (final f2) = Llama.fault ls).
Proof.
  intros w1 w2 f1 f2.
  assert (Hw : Whisper.g_ctx (final w1) = None).
  { subst w1. destruct (Whisper.g_ctx ws) as [h|] eqn:H.
    - now rewrite (WhisperFacts.whisper_free_live W _ _ H).
    - now rewrite (WhisperFacts.whisper_free_null W _ H). }
  assert (Hw2 : w2 = (tt, final w1, []))
    by (subst w2; now apply WhisperFacts.whisper_free_null).
  destruct (LlamaFacts.free_clears L ls) as [Hc Hm]. fold f1 in Hc, Hm.
  assert (Hf2 : f2 = (tt, final f1, []))
    by (subst f2; now apply LlamaFacts.llama_free_null).
  repeat split; try assumption.
  - intros Hlive. rewrite Hw2. cbn [final fst snd].
    pose proof (WhisperFacts.perform_safe W Whisper.nativeWhisperFree ws Hlive)
      as [_ Hs].
    cbn [Whisper.perform] in Hs. rewrite final_bind in Hs. exact Hs.
  - intros Hlive. rewrite Hf2. cbn [final fst snd].
    now apply LlamaFacts.free_safe.
Qed.

Lemma free_twice_is_free_once_witness :
  Whisper.fault
    (final (Whisper.whisper_bridge_free Whisper.mock
              (final (Whisper.whisper_bridge_free Whisper.mock w1))))
  = Whisper.fault w1
  ∧ Llama.fault
      (final (Llama.llama_bridge_free Llama.mock
                (final (Llama.llama_bridge_free Llama.mock l1))))
    = Llama.fault l1.
Proof.
  split.
  - apply (proj1 (proj2 (proj2 (free_twice_is_free_once Whisper.mock
                                  Llama.mock w1 l1)))).
    reflexivity.
  - apply (proj2 (proj2 (proj2 (free_twice_is_free_once Whisper.mock
                                  Llama.mock w1 l1)))).
    reflexivity.
Defined.

(** C10.  [whisper_bridge_init] called with a live handle frees that handle
    first and only then tries the load, whether the load succeeds or not.
    When it returns false, the old handle is not live, [g_ctx] is null, and
    in any sequence of calls that follows, every transcription answered
    before an init succeeds is the empty string. *)
Theorem failed_reinit_leaves_no_handle
    {Ω Pcm : Type} (W : Whisper.engine Ω Pcm) (path : string) (threads : Z)
    (s : Whisper.state Ω) (h : handle) :
  Whisper.g_ctx s = Some h →
  let r := Whisper.whisper_bridge_init W path threads s in
  trace r
  = [Whisper.EFree h;
     Whisper.EInit path false (Whisper.g_ctx (final r));
     if value r then Whisper.ELogI ("Whisper model loaded OK from " ++ path)
     else Whisper.ELogE ("Failed to load: " ++ path)]
  ∧ (value r = false →
     Whisper.g_ctx (final r) = None
     ∧ (h ∉ Whisper.live (final r))
     ∧ ∀ calls,
         Whisper.silent_until_loaded
           (value (Whisper.perform_all W calls (final r))) = true).
Proof.
  intros Hh r. split.
  - now apply WhisperFacts.init_trace_live.
  - intros Hv.
    assert (Hnull : Whisper.g_ctx (final r) = None)
      by now apply WhisperFacts.init_failed_null.
    split; [exact Hnull|]. split.
    + subst r. rewrite (WhisperFacts.init_live W _ _ _ _ Hh) in Hv |- *.
      unfold value, final, Whisper.loaded in *. cbn in Hv |- *.
      rewrite Hv. intros Hin.
      apply elem_of_difference in Hin as [_ Hin].
      apply Hin. now apply elem_of_singleton.
    + intros calls. now apply WhisperFacts.silent_while_null.
Qed.

Lemma failed_reinit_leaves_no_handle_witness :
  let r := Whisper.whisper_bridge_init Whisper.mock "missing.bin" 4 w1 in
  trace r
  = [Whisper.EFree 1%positive;
     Whisper.EInit "missing.bin" false (Whisper.g_ctx (final r));
     if value r
     then Whisper.ELogI ("Whisper model loaded OK from " ++ "missing.bin")
     else Whisper.ELogE ("Failed to load: " ++ "missing.bin")]
  ∧ (value r = false →
     Whisper.g_ctx (final r) = None
     ∧ (1%positive ∉ Whisper.live (final r))
     ∧ ∀ calls,
         Whisper.silent_until_loaded
           (value (Whisper.perform_all Whisper.mock calls (final r))) = true).
Proof.
  apply (failed_reinit_leaves_no_handle Whisper.mock "missing.bin" 4 w1
           1%positive).
  reflexivity.
Defined.

(** C1, on the code as it is.  A second [llama_bridge_init] on the loaded
    manager succeeds without freeing anything: its trace holds no free, the
    model and the context of the first init are still live next to the new
    ones, and nothing points to them any more. *)
Theorem llama_reinit_keeps_prior_handle_live :
  let r := Llama.llama_bridge_init Llama.mock "model.gguf" 4 2048 l1 in
  Llama.g_model l1 = Some 1%positive
  ∧ Llama.g_ctx l1 = Some 2%positive
  ∧ value r = true
  ∧ trace r
    = [Llama.EModelLoad "model.gguf" 0 (Some 3%positive);
       Llama.EInitFromModel 3%positive
         {| Llama.n_ctx := 2048; Llama.n_threads := 4;
            Llama.n_threads_batch := 4 |} (Some 4%positive);
       Llama.ELogI "Model loaded. SME=%s | I8MM=%s | BF16=%s"]
  ∧ Llama.g_model (final r) = Some 3%positive
  ∧ Llama.g_ctx (final r) = Some 4%positive
  ∧ Llama.models (final r) = {[1%positive; 3%positive]}
  ∧ Llama.ctxs (final r) = {[2%positive; 4%positive]}
  ∧ size (Llama.models (final r)) = 2%nat.
Proof. vm_compute. repeat split. Qed.

(** * Further facts about whisper_bridge.cpp *)

Module WhisperMore.
Import Whisper.

Section Facts.
Context {Ω Pcm : Type} (W : engine Ω Pcm).

Lemma whisper_free_clears (s : state Ω) :
  g_ctx (final (whisper_bridge_free W s)) = None.
Proof.
  destruct (g_ctx s) as [h|] eqn:H.
  - now rewrite (WhisperFacts.whisper_free_live W _ _ H).
  - now rewrite (WhisperFacts.whisper_free_null W _ H).
Qed.

(** A transcription moves the engine and nothing else. *)
Lemma transcribe_frame pcm n_samples lang (s : state Ω) :
  let r := whisper_bridge_transcribe W pcm n_samples lang s in
  g_ctx (final r) = g_ctx s ∧ g_threads (final r) = g_threads s
  ∧ live (final r) = live s ∧ next (final r) = next s.
Proof.
  intros r. subst r. destruct (g_ctx s) as [h|] eqn:H.
  - destruct (Z.eq_dec
                (fst (eng_full W h (full_params lang (g_threads s)) pcm
                        n_samples (eng s))) 0) as [Hst | Hst].
    + rewrite (WhisperFacts.transcribe_passed W _ _ _ _ _ H Hst).
      cbn. now rewrite H.
    + rewrite (WhisperFacts.transcribe_failed W _ _ _ _ _ H Hst).
      cbn. now rewrite H.
  - rewrite (WhisperFacts.transcribe_null W _ _ _ _ H). cbn. now rewrite H.
Qed.

(** The engine calls a transcription makes: none, one pass, or one pass and
    the log line. *)
Lemma transcribe_trace pcm n_samples lang (s : state Ω) :
  let tr := trace (whisper_bridge_transcribe W pcm n_samples lang s) in
  tr = []
  ∨ ∃ h status,
      g_ctx s = Some h
      ∧ (tr = [EFull h (full_params lang (g_threads s)) n_samples status]
         ∨ tr = [EFull h (full_params lang (g_threads s)) n_samples status;
                 ELogE "whisper_full() failed"]).
Proof.
  intros tr. subst tr. destruct (g_ctx s) as [h|] eqn:H.
  - right. exists h.
    destruct (Z.eq_dec
                (fst (eng_full W h (full_params lang (g_threads s)) pcm
                        n_samples (eng s))) 0) as [Hst | Hst].
    + rewrite (WhisperFacts.transcribe_passed W _ _ _ _ _ H Hst).
      exists 0. split; [reflexivity|]. now left.
    + rewrite (WhisperFacts.transcribe_failed W _ _ _ _ _ H Hst).
      eexists. split; [reflexivity|]. now right.
  - left. now rewrite (WhisperFacts.transcribe_null W _ _ _ _ H).
Qed.

(** An init sets the thread count whatever the load does, and returns true
    exactly when it leaves a handle. *)
Lemma init_result path threads (s : state Ω) :
  let r := whisper_bridge_init W path threads s in
  g_threads (final r) = threads
  ∧ (value r = true →
     ∃ h, g_ctx (final r) = Some h ∧ h ∈ live (final r))
  ∧ (value r = false → g_ctx (final r) = None).
Proof.
  intros r. subst r. destruct (g_ctx s) as [h|] eqn:H.
  - rewrite (WhisperFacts.init_live W _ _ _ _ H).
    unfold value, final, loaded. cbn -[released].
    split; [reflexivity|]. split; intros ->; cbn.
    + eexists. split; [reflexivity|]. apply elem_of_union. left.
      now apply elem_of_singleton.
    + reflexivity.
  - rewrite (WhisperFacts.init_null W _ _ _ H).
    unfold value, final, loaded. cbn.
    split; [reflexivity|]. split; intros ->; cbn.
    + eexists. split; [reflexivity|]. apply elem_of_union. left.
      now apply elem_of_singleton.
    + reflexivity.
Qed.

(** The joined text of no segments, or of null segments only, is empty. *)
Lemma omap_none {A B} (f : A → option B) (l : list A) :
  (∀ x, In x l → f x = None) → omap f l = [].
Proof.
  induction l as [|x l IH]; intros H; [reflexivity|].
  cbn. rewrite (H x) by now left. apply IH. intros y Hy. apply H. now right.
Qed.

Lemma transcript_empty (ω : Ω) (h : handle) :
  eng_n_segments W ω h ≤ 0
  ∨ (∀ i, 0 ≤ i < eng_n_segments W ω h → eng_segment_text W ω h i = None) →
  transcript W ω h = EmptyString.
Proof.
  unfold transcript, segment_texts. intros [Hn | Hnull].
  - now replace (Z.to_nat (eng_n_segments W ω h)) with 0%nat by lia.
  - rewrite omap_none; [reflexivity|].
    intros i Hi. apply in_seq in Hi. apply Hnull. lia.
Qed.

End Facts.
End WhisperMore.

(** * Further facts about llama_bridge.cpp *)

Module LlamaMore.
Import Llama.

Section Facts.
Context {Ω : Type} (L : engine Ω).

(** ** Calls that raise no fault *)

Lemma safely_ret {A} (P : state Ω → Prop) (a : A) :
  safely P (ret a) (λ _, P).
Proof. intros s H. now split. Qed.

Lemma safely_bind {A B} (P : state Ω → Prop) (Q : A → state Ω → Prop)
    (R : B → state Ω → Prop)
    (m : M (state Ω) event A) (k : A → M (state Ω) event B) :
  safely P m Q → (∀ a, safely (Q a) (k a) R) → safely P (bind m k) R.
Proof.
  intros Hm Hk s Hs. rewrite value_bind, final_bind.
  destruct (Hm s Hs) as [HQ Hf1].
  destruct (Hk _ _ HQ) as [HR Hf2].
  split; [exact HR | congruence].
Qed.

Lemma safely_if {A} (P : state Ω → Prop) (Q : A → state Ω → Prop) (b : bool)
    (m1 m2 : M (state Ω) event A) :
  safely P m1 Q → safely P m2 Q → safely P (if b then m1 else m2) Q.
Proof. now destruct b. Qed.

Lemma safely_emit (P : state Ω → Prop) (e : event) :
  safely P (emit e) (λ _, P).
Proof. intros s H. now split. Qed.

Lemma touch_live (x : gset handle) (h : handle) (s : state Ω) :
  h ∈ x → touch x h s = s.
Proof.
  intros H. unfold touch. rewrite bool_decide_eq_true_2 by exact H.
  destruct s. cbn. now rewrite orb_false_r.
Qed.

Ltac prim :=
  intros s (Hc & Hm & Hs);
  unfold llama_memory_clear, llama_tokenize, llama_decode,
    llama_sampler_chain_init, llama_sampler_chain_add, llama_sampler_sample,
    llama_vocab_is_eog, llama_token_to_piece, llama_sampler_free,
    bind, gets, modify, emit, ret, value, final;
  cbn -[touch]; rewrite ?touch_live by assumption;
  cbn -[touch]; rewrite ?touch_live by assumption;
  unfold objects_live; cbn.

Lemma safely_memory_clear o c v data :
  safely (objects_live o c v) (llama_memory_clear L c data)
         (λ _, objects_live o c v).
Proof. prim. now repeat split. Qed.

Lemma safely_tokenize o c v text len toks cap a p :
  safely (objects_live o c v) (llama_tokenize L v text len toks cap a p)
         (λ _, objects_live o c v).
Proof. prim. now repeat split. Qed.

Lemma safely_decode o c v batch :
  safely (objects_live o c v) (llama_decode L c batch)
         (λ _, objects_live o c v).
Proof. prim. now repeat split. Qed.

Lemma safely_chain_init c v :
  safely (objects_live None c v) (llama_sampler_chain_init L)
         (λ smpl, objects_live (Some smpl) c v).
Proof.
  prim. repeat split; try assumption.
  apply elem_of_union. left. now apply elem_of_singleton.
Qed.

Lemma safely_chain_add smpl c v stage :
  safely (objects_live (Some smpl) c v) (llama_sampler_chain_add L smpl stage)
         (λ _, objects_live (Some smpl) c v).
Proof. prim. now repeat split. Qed.

Lemma safely_sample smpl c v idx :
  safely (objects_live (Some smpl) c v) (llama_sampler_sample L smpl c idx)
         (λ _, objects_live (Some smpl) c v).
Proof. prim. now repeat split. Qed.

Lemma safely_is_eog o c v tok :
  safely (objects_live o c v) (llama_vocab_is_eog L v tok)
         (λ _, objects_live o c v).
Proof. prim. now repeat split. Qed.

Lemma safely_piece o c v tok len lstrip special :
  safely (objects_live o c v)
         (llama_token_to_piece L v tok len lstrip special)
         (λ _, objects_live o c v).
Proof. prim. now repeat split. Qed.

Lemma safely_sampler_free smpl c v :
  safely (objects_live (Some smpl) c v) (llama_sampler_free L smpl)
         (λ _, objects_live None c v).
Proof. prim. now repeat split. Qed.

Lemma safely_decode_loop (k : nat) smpl c v :
  safely (objects_live (Some smpl) c v) (decode_loop L k smpl c v)
         (λ _, objects_live (Some smpl) c v).
Proof.
  induction k as [|k IH]; unfold decode_loop; fold (decode_loop L).
  - apply safely_ret.
  - eapply safely_bind; [apply safely_sample | intros tok; cbn beta].
    eapply safely_bind; [apply safely_is_eog | intros eog; cbn beta].
    apply safely_if; [apply safely_ret|].
    eapply safely_bind; [apply safely_piece | intros r; cbn beta].
    eapply safely_bind with (Q := λ _, objects_live (Some smpl) c v).
    { apply safely_if; [apply safely_emit | apply safely_ret]. }
    intros _.
    eapply safely_bind; [apply safely_decode | intros status; cbn beta].
    apply safely_if; [apply safely_ret | exact IH].
Qed.

Lemma safely_translate_tokens c v n toks :
  safely (objects_live None c v) (translate_tokens L c v n toks)
         (λ _, objects_live None c v).
Proof.
  unfold translate_tokens.
  apply safely_if; [apply safely_emit|].
  eapply safely_bind; [apply safely_decode | intros status; cbn beta].
  apply safely_if; [apply safely_emit|].
  eapply safely_bind; [apply safely_chain_init | intros smpl; cbn beta].
  eapply safely_bind; [apply safely_chain_add | intros ?; cbn beta].
  eapply safely_bind; [apply safely_chain_add | intros ?; cbn beta].
  eapply safely_bind; [apply safely_chain_add | intros ?; cbn beta].
  eapply safely_bind; [apply safely_decode_loop | intros ?; cbn beta].
  apply safely_sampler_free.
Qed.

(** A translation on live objects raises no fault, unless the tokenizer
    answered [INT_MIN]. *)
Lemma translate_safe prompt (s : state Ω) (c m : handle) :
  g_ctx s = Some c → g_model s = Some m →
  c ∈ ctxs s → m ∈ models s →
  fst (eng_tokenize L (eng_memory_clear L c true (eng s)) m prompt
         (prompt_len prompt) (first_buffer prompt)
         (capacity (first_buffer prompt)) true true) ≠ INT_MIN →
  fault (final (llama_bridge_translate L prompt s)) = fault s.
Proof.
  intros Hc Hm Hcl Hml Hmin.
  pose proof (LlamaFacts.translate_live L prompt s c m Hc Hm) as H.
  cbn zeta in H. destruct H as (Hfit & _ & Hretry).
  assert (H0 : objects_live None c m s) by now repeat split.
  destruct (safely_memory_clear None c m true s H0) as [H1 Hf1].
  set (s1 := final (llama_memory_clear L c true s)) in *.
  destruct (safely_tokenize None c m prompt (prompt_len prompt)
              (first_buffer prompt) (capacity (first_buffer prompt))
              true true s1 H1) as [H2 Hf2].
  set (t1 := llama_tokenize L m prompt (prompt_len prompt)
               (first_buffer prompt) (capacity (first_buffer prompt))
               true true s1) in *.
  change (fst (value t1) ≠ INT_MIN) in Hmin.
  destruct (Z_lt_ge_dec (fst (value t1)) 0) as [Hneg | Hpos].
  - destruct (Hretry Hneg Hmin) as [_ ->].
    set (toks := resize _ _).
    destruct (safely_tokenize None c m prompt (prompt_len prompt) toks
                (capacity toks) true true (final t1) H2) as [H3 Hf3].
    match goal with
    | |- fault (final (translate_tokens L c m ?n ?tk ?s')) = _ =>
        destruct (safely_translate_tokens c m n tk s' H3) as [_ Hf4]
    end.
    congruence.
  - destruct (Hfit ltac:(lia)) as [_ ->].
    destruct (safely_translate_tokens c m (fst (value t1)) (snd (value t1))
                _ H2) as [_ Hf4].
    congruence.
Qed.

(** ** The four shapes of a translate trace *)

Lemma prelude_is_quiet (l : list event) :
  Forall (λ e, prelude_event e = true) l →
  Forall (λ e, quiet_event e = true) l.
Proof.
  induction 1 as [|e l He _ IH]; constructor; [|exact IH].
  destruct e; try discriminate He; reflexivity.
Qed.

(** After the memory clear and one or two tokenizer calls, a call with both
    statics set stops (the tokenizer answered [INT_MIN]), logs a
    tokenization failure, logs a prefill failure after one decode, or
    decodes, sets up the sampler chain, runs the loop and frees the chain. *)
Lemma translate_shape prompt (s : state Ω) :
  let tr := trace (llama_bridge_translate L prompt s) in
  tr = []
  ∨ ∃ pre tail,
      tr = pre ++ tail
      ∧ Forall (λ e, prelude_event e = true) pre
      ∧ (tail = []
         ∨ tail = [ELogE "Tokenization failed"]
         ∨ (∃ c batch status,
              status ≠ 0
              ∧ tail = [EDecode c batch status; ELogE "Prefill failed"])
         ∨ (∃ c batch body,
              loop_trace (next s) c 512 body
              ∧ tail = EDecode c batch 0 :: sampler_setup (next s)
                       ++ body ++ [ESamplerFree (next s)])).
Proof.
  intros tr. subst tr.
  destruct (g_ctx s) as [c|] eqn:Hc; [destruct (g_model s) as [m|] eqn:Hm|];
    [|left; now rewrite LlamaFacts.translate_null by (now right)
      |left; now rewrite LlamaFacts.translate_null by (now left)].
  right.
  pose proof (LlamaFacts.translate_live L prompt s c m Hc Hm) as H.
  cbn zeta in H. destruct H as (Hfit & Habort & Hretry).
  set (s1 := final (llama_memory_clear L c true s)) in *.
  set (t1 := llama_tokenize L m prompt (prompt_len prompt)
               (first_buffer prompt) (capacity (first_buffer prompt))
               true true s1) in *.
  assert (Hn1 : next (final t1) = next s).
  { apply (LlamaFacts.pool_eq s (final t1)). unfold t1.
    rewrite LlamaFacts.pool_tokenize. apply LlamaFacts.pool_memory_clear. }
  assert (Htail : ∀ n toks (s' : state Ω),
            next s' = next s →
            let tail := trace (translate_tokens L c m n toks s') in
            tail = []
            ∨ tail = [ELogE "Tokenization failed"]
            ∨ (∃ c0 batch status,
                 status ≠ 0
                 ∧ tail = [EDecode c0 batch status; ELogE "Prefill failed"])
            ∨ (∃ c0 batch body,
                 loop_trace (next s) c0 512 body
                 ∧ tail = EDecode c0 batch 0 :: sampler_setup (next s)
                          ++ body ++ [ESamplerFree (next s)])).
  { intros n toks s' Hn tail. subst tail.
    destruct (LlamaFacts.translate_tokens_cases L c m n toks s')
      as [[_ Hr] | [(_ & status & Hst & Htr & _) | (_ & body & Hb & Htr & _)]].
    - right. left. now rewrite Hr.
    - right. right. left. eexists c, _, status.
      split; [exact Hst | exact Htr].
    - right. right. right. rewrite Hn in Hb, Htr.
      eexists c, _, body. split; [exact Hb | exact Htr]. }
  destruct (Z_lt_ge_dec (fst (value t1)) 0) as [Hneg | Hpos].
  - destruct (Z.eq_dec (fst (value t1)) INT_MIN) as [Hmin | Hmin].
    + destruct (Habort Hmin) as [-> _].
      exists (EMemoryClear c true :: trace t1), [].
      rewrite app_nil_r. split; [reflexivity|]. split; [|now left].
      unfold t1 at 1. rewrite LlamaFacts.trace_tokenize. repeat constructor.
    + destruct (Hretry Hneg Hmin) as [-> _].
      set (toks := resize _ _).
      set (t2 := llama_tokenize L m prompt (prompt_len prompt) toks
                   (capacity toks) true true (final t1)).
      eexists (EMemoryClear c true :: trace t1 ++ trace t2), _.
      split; [cbn [app]; now rewrite <- app_assoc|]. split.
      * unfold t1 at 1, t2. rewrite !LlamaFacts.trace_tokenize.
        repeat constructor.
      * apply Htail. unfold t2.
        transitivity (next (final t1)); [|exact Hn1].
        apply (LlamaFacts.pool_eq (final t1)).
        apply LlamaFacts.pool_tokenize.
  - destruct (Hfit ltac:(lia)) as [-> _].
    eexists (EMemoryClear c true :: trace t1), _.
    split; [reflexivity|]. split.
    + unfold t1 at 1. rewrite LlamaFacts.trace_tokenize. repeat constructor.
    + now apply Htail.
Qed.

(** ** Counting over the shapes *)

Lemma rendered_app (t1 t2 : list event) :
  rendered_nonempty (t1 ++ t2)
  = (rendered_nonempty t1 + rendered_nonempty t2)%nat.
Proof.
  induction t1 as [|e t1 IH]; [reflexivity|].
  destruct e; cbn; rewrite ?IH; try reflexivity.
  now destruct (0 <? len).
Qed.

Lemma decode_calls_app (t1 t2 : list event) :
  decode_calls (t1 ++ t2) = (decode_calls t1 + decode_calls t2)%nat.
Proof.
  induction t1 as [|e t1 IH]; [reflexivity|].
  destruct e; cbn; now rewrite ?IH.
Qed.

Lemma pass_rendered smpl c tok len piece status :
  length (fragments (pass_events smpl c tok len piece status))
  = rendered_nonempty (pass_events smpl c tok len piece status).
Proof. unfold pass_events. cbn. now destruct (0 <? len). Qed.

Lemma pass_decodes smpl c tok len piece status :
  decode_calls (pass_events smpl c tok len piece status) = 1%nat.
Proof. unfold pass_events. now destruct (0 <? len). Qed.

Lemma pass_no_log smpl c tok len piece status msg :
  ¬ In (ELogE msg) (pass_events smpl c tok len piece status).
Proof.
  unfold pass_events. destruct (0 <? len); cbn; intuition discriminate.
Qed.

Lemma loop_rendered smpl c k tr :
  loop_trace smpl c k tr → length (fragments tr) = rendered_nonempty tr.
Proof.
  induction 1 as [|k tok|k tok len piece status Hst|k tok len piece rest _ IH].
  - reflexivity.
  - reflexivity.
  - apply pass_rendered.
  - rewrite LlamaFacts.fragments_app, length_app, rendered_app, IH.
    now rewrite pass_rendered.
Qed.

(** In a loop run every decode follows a draw, and at most one draw, the
    last, is not followed by a decode. *)
Lemma loop_decodes smpl c k tr :
  loop_trace smpl c k tr →
  (decode_calls tr ≤ sample_calls tr ≤ Datatypes.S (decode_calls tr))%nat.
Proof.
  induction 1 as [|k tok|k tok len piece status Hst|k tok len piece rest _ IH].
  - cbn; lia.
  - cbn; lia.
  - rewrite pass_decodes, LlamaFacts.pass_samples. lia.
  - rewrite decode_calls_app, LlamaFacts.sample_calls_app, pass_decodes,
      LlamaFacts.pass_samples. lia.
Qed.

Lemma loop_no_log smpl c k tr msg :
  loop_trace smpl c k tr → ¬ In (ELogE msg) tr.
Proof.
  induction 1 as [|k tok|k tok len piece status Hst|k tok len piece rest _ IH].
  - intros [].
  - cbn. intuition discriminate.
  - apply pass_no_log.
  - rewrite in_app_iff. intros [H | H]; [|now apply IH].
    now apply pass_no_log in H.
Qed.

Lemma prelude_no_log (l : list event) msg :
  Forall (λ e, prelude_event e = true) l → ¬ In (ELogE msg) l.
Proof.
  intros H Hin. rewrite List.Forall_forall in H. apply H in Hin.
  discriminate Hin.
Qed.

Lemma prelude_decodes (l : list event) :
  Forall (λ e, prelude_event e = true) l → decode_calls l = 0%nat.
Proof.
  induction 1 as [|e l He _ IH]; [reflexivity|].
  destruct e; try discriminate He; exact IH.
Qed.

Lemma quiet_rendered (l : list event) :
  Forall (λ e, quiet_event e = true) l → rendered_nonempty l = 0%nat.
Proof.
  induction 1 as [|e l He _ IH]; [reflexivity|].
  destruct e; try discriminate He; exact IH.
Qed.

(** ** Consequences of the shapes *)

(** The callback runs once for each token that rendered to a text that is
    not empty, and for nothing else. *)
Lemma translate_rendered prompt (s : state Ω) :
  let tr := trace (llama_bridge_translate L prompt s) in
  length (fragments tr) = rendered_nonempty tr.
Proof.
  intros tr. subst tr.
  destruct (LlamaFacts.outcome_translate L prompt s)
    as [[Hq _] | (head & body & ctx & -> & Hh & Hb & _)].
  - now rewrite (LlamaFacts.quiet_fragments _ Hq), (quiet_rendered _ Hq).
  - rewrite !LlamaFacts.fragments_app, !rendered_app, !length_app.
    rewrite (LlamaFacts.quiet_fragments _ Hh), (quiet_rendered _ Hh).
    rewrite (loop_rendered _ _ _ _ Hb). reflexivity.
Qed.

(** A call that logs an error created no sampler chain, drew nothing and
    delivered nothing; the log line is the last thing it did. *)
Lemma translate_logged prompt (s : state Ω) msg :
  let tr := trace (llama_bridge_translate L prompt s) in
  In (ELogE msg) tr →
  (∃ before, tr = before ++ [ELogE msg]
             ∧ Forall (λ e, quiet_event e = true) before)
  ∧ (msg = "Tokenization failed"%string ∨ msg = "Prefill failed"%string).
Proof.
  intros tr Hin. subst tr.
  destruct (translate_shape prompt s)
    as [Hnil | (pre & tail & Htr & Hpre & Htail)].
  - rewrite Hnil in Hin. destruct Hin.
  - rewrite Htr in Hin |- *. apply in_app_iff in Hin as [Hin | Hin];
      [now apply (prelude_no_log _ msg) in Hpre|].
    destruct Htail as [-> | [-> | [(c & batch & status & _ & ->)
                                  | (c & batch & body & Hb & ->)]]].
    + destruct Hin.
    + destruct Hin as [Hin | []]. injection Hin as <-.
      split; [|now left]. exists pre.
      split; [reflexivity | now apply prelude_is_quiet].
    + destruct Hin as [Hin | [Hin | []]]; [discriminate Hin|].
      injection Hin as <-. split; [|now right].
      exists (pre ++ [EDecode c batch status]).
      split; [now rewrite <- app_assoc|].
      apply Forall_app. split; [now apply prelude_is_quiet|].
      repeat constructor.
    + exfalso. destruct Hin as [Hin | Hin]; [discriminate Hin|].
      rewrite !in_app_iff in Hin. destruct Hin as [Hin | [Hin | Hin]].
      * cbn in Hin. intuition discriminate.
      * now apply (loop_no_log _ _ _ _ msg) in Hb.
      * destruct Hin as [Hin | []]. discriminate Hin.
Qed.

(** A sampler chain is created only right after a prefill that succeeded,
    gets its three stages before the first draw, and is freed last. *)
Lemma translate_sampler_life prompt (s : state Ω) smpl :
  let tr := trace (llama_bridge_translate L prompt s) in
  In (ESamplerChainInit smpl) tr →
  ∃ pre c batch body,
    tr = pre ++ EDecode c batch 0 :: sampler_setup smpl
         ++ body ++ [ESamplerFree smpl]
    ∧ Forall (λ e, prelude_event e = true) pre
    ∧ loop_trace smpl c 512 body.
Proof.
  intros tr Hin. subst tr.
  destruct (LlamaFacts.translate_frees_sampler L prompt s smpl Hin)
    as (-> & _).
  destruct (translate_shape prompt s)
    as [Hnil | (pre & tail & Htr & Hpre & Htail)].
  - rewrite Hnil in Hin. destruct Hin.
  - rewrite Htr in Hin |- *.
    assert (Hq : ∀ l, Forall (λ e, quiet_event e = true) l →
                      ¬ In (ESamplerChainInit (next s)) l)
      by (intros l; apply LlamaFacts.quiet_no_init).
    apply in_app_iff in Hin as [Hin | Hin];
      [now apply Hq in Hin; [|apply prelude_is_quiet]|].
    destruct Htail as [-> | [-> | [(c & batch & status & _ & ->)
                                  | (c & batch & body & Hb & ->)]]].
    + destruct Hin.
    + cbn in Hin. intuition discriminate.
    + cbn in Hin. intuition discriminate.
    + exists pre, c, batch, body. now repeat split.
Qed.

(** No stage is added to a chain outside the setup. *)
Lemma pass_no_add smpl c tok len piece status x stage :
  ¬ In (ESamplerChainAdd x stage) (pass_events smpl c tok len piece status).
Proof.
  unfold pass_events. destruct (0 <? len); cbn; intuition discriminate.
Qed.

Lemma loop_no_add smpl c k tr x stage :
  loop_trace smpl c k tr → ¬ In (ESamplerChainAdd x stage) tr.
Proof.
  induction 1 as [|k tok|k tok len piece status Hst|k tok len piece rest _ IH].
  - intros [].
  - cbn. intuition discriminate.
  - apply pass_no_add.
  - rewrite in_app_iff. intros [H | H]; [|now apply IH].
    now apply pass_no_add in H.
Qed.

Lemma prelude_no_add (l : list event) x stage :
  Forall (λ e, prelude_event e = true) l → ¬ In (ESamplerChainAdd x stage) l.
Proof.
  intros H Hin. rewrite List.Forall_forall in H. apply H in Hin.
  discriminate Hin.
Qed.

(** ** The prefill batch *)

Lemma batch_length (n : Z) (toks : list llama_token) :
  length (llama_batch_get_one (resize (Z.to_nat n) toks) n) = Z.to_nat n.
Proof.
  unfold llama_batch_get_one.
  rewrite length_firstn, LlamaFacts.resize_length. lia.
Qed.

Lemma batch_tokens (n : Z) (toks : list llama_token) :
  (Z.to_nat n ≤ length toks)%nat →
  llama_batch_get_one (resize (Z.to_nat n) toks) n = firstn (Z.to_nat n) toks.
Proof.
  intros H. unfold llama_batch_get_one, resize.
  replace (Z.to_nat n - length toks)%nat with 0%nat by lia.
  cbn [repeat]. rewrite app_nil_r. rewrite firstn_firstn. f_equal. lia.
Qed.

(** ** llama_bridge_init, all outcomes *)

Ltac run_init :=
  unfold llama_bridge_init, llama_model_load_from_file, llama_init_from_model,
    llama_model_free, LOGE, LOGI, bind, gets, modify, emit, ret, value, final,
    trace;
  cbn -[bool_decide to_uint32].

Lemma init_sets_threads path threads size (s : state Ω) :
  g_threads (final (llama_bridge_init L path threads size s)) = threads.
Proof.
  run_init.
  destruct (fst (eng_model_load L path 0 (eng s)));
    cbn -[bool_decide to_uint32]; [|reflexivity].
  match goal with
  | |- context [fst (eng_init_from_model L ?m ?cp ?ω)] =>
      destruct (fst (eng_init_from_model L m cp ω))
  end; cbn -[bool_decide to_uint32]; reflexivity.
Qed.

Lemma init_never_faults path threads size (s : state Ω) :
  fault (final (llama_bridge_init L path threads size s)) = fault s.
Proof.
  destruct (fst (eng_model_load L path 0 (eng s))) eqn:H1.
  - match goal with
    | |- context [llama_bridge_init L path threads ?sz s] =>
        destruct (fst (eng_init_from_model L (next s)
                         {| n_ctx := to_uint32 sz;
                            n_threads := to_uint32 threads;
                            n_threads_batch := to_uint32 threads |}
                         (snd (eng_model_load L path 0 (eng s))))) eqn:H2
    end.
    + now destruct (LlamaFacts.init_ok L path threads size s H1 H2)
        as (_ & _ & _ & _ & _ & _ & ->).
    + now destruct (LlamaFacts.init_ctx_failed L path threads size s H1 H2)
        as (_ & _ & _ & _ & _ & _ & ->).
  - now destruct (LlamaFacts.init_load_failed L path threads size s H1)
      as (_ & _ & _ & _ & _ & _ & ->).
Qed.

Lemma init_failed_no_model path threads size (s : state Ω) :
  value (llama_bridge_init L path threads size s) = false →
  g_model (final (llama_bridge_init L path threads size s)) = None.
Proof.
  intros Hv.
  destruct (fst (eng_model_load L path 0 (eng s))) eqn:H1.
  - match goal with
    | |- context [llama_bridge_init L path threads ?sz s] =>
        destruct (fst (eng_init_from_model L (next s)
                         {| n_ctx := to_uint32 sz;
                            n_threads := to_uint32 threads;
                            n_threads_batch := to_uint32 threads |}
                         (snd (eng_model_load L path 0 (eng s))))) eqn:H2
    end.
    + destruct (LlamaFacts.init_ok L path threads size s H1 H2) as (Ht & _).
      congruence.
    + now destruct (LlamaFacts.init_ctx_failed L path threads size s H1 H2)
        as (_ & _ & -> & _).
  - now destruct (LlamaFacts.init_load_failed L path threads size s H1)
      as (_ & _ & -> & _).
Qed.

(** ** llama_bridge_free, step by step *)

Lemma free_both (s : state Ω) (c m : handle) :
  g_ctx s = Some c → g_model s = Some m →
  let r := llama_bridge_free L s in
  trace r = [EFree c; EModelFree m]
  ∧ ctxs (final r) = ctxs s ∖ {[c]}
  ∧ models (final r) = models s ∖ {[m]}
  ∧ samplers (final r) = samplers s.
Proof.
  intros Hc Hm r. subst r.
  unfold llama_bridge_free, llama_free, llama_model_free, bind, gets, modify,
    emit, ret, value, final, trace.
  cbn -[bool_decide]. rewrite Hc. cbn -[bool_decide]. rewrite Hm.
  cbn -[bool_decide]. now repeat split.
Qed.

Lemma free_context_only (s : state Ω) (c : handle) :
  g_ctx s = Some c → g_model s = None →
  let r := llama_bridge_free L s in
  trace r = [EFree c] ∧ ctxs (final r) = ctxs s ∖ {[c]}
  ∧ models (final r) = models s.
Proof.
  intros Hc Hm r. subst r.
  unfold llama_bridge_free, llama_free, llama_model_free, bind, gets, modify,
    emit, ret, value, final, trace.
  cbn -[bool_decide]. rewrite Hc. cbn -[bool_decide]. rewrite Hm.
  cbn -[bool_decide]. now repeat split.
Qed.

(** ** Sequences of calls *)

Lemma perform_ptrs_live (c : call) (s : state Ω) :
  ptrs_live s = true → ptrs_live (final (perform L c s)) = true.
Proof.
  intros Hs. destruct c as [path threads size | prompt |]; cbn [perform];
    rewrite final_bind; cbn [ret final fst snd].
  - now apply LlamaFacts.ptrs_live_init.
  - now rewrite LlamaFacts.ptrs_live_translate.
  - apply LlamaFacts.ptrs_live_free.
Qed.

Lemma perform_all_ptrs_live (cs : list call) :
  ∀ s : state Ω,
    ptrs_live s = true → ptrs_live (final (perform_all L cs s)) = true.
Proof.
  induction cs as [|c cs IH]; intros s Hs; [exact Hs|].
  cbn [perform_all]. rewrite !final_bind. cbn [ret final fst snd].
  apply IH. now apply perform_ptrs_live.
Qed.

End Facts.
End LlamaMore.

(** * Further properties of the bridge *)

(** X1.  From a state where the only live ASR context is the one [g_ctx]
    points to (the initial state is one), any sequence of the three whisper
    entry points ends in such a state again: at most one context is live,
    and it is never an unreachable one. *)
Theorem asr_never_two_live_contexts
    {Ω Pcm : Type} (W : Whisper.engine Ω Pcm)
    (cs : list (Whisper.call (Pcm := Pcm))) (s : Whisper.state Ω) :
  Whisper.sole_owner s →
  Whisper.sole_owner (final (Whisper.perform_all W cs s))
  ∧ (size (Whisper.live (final (Whisper.perform_all W cs s))) ≤ 1)%nat.
Proof.
  intros Hs.
  pose proof (WhisperFacts.perform_all_sole_owner W cs s Hs) as H.
  split; [exact H | now apply WhisperFacts.sole_owner_size].
Qed.

Lemma asr_never_two_live_contexts_witness :
  let cs := [Whisper.nativeWhisperInit "ggml-base.bin" 4;
             Whisper.nativeWhisperTranscribe [0; 0] 2 "en";
             Whisper.nativeWhisperInit "ggml-base.bin" 2;
             Whisper.nativeWhisperInit "missing.bin" 2;
             Whisper.nativeWhisperFree] in
  Whisper.sole_owner (final (Whisper.perform_all Whisper.mock cs w0))
  ∧ (size (Whisper.live (final (Whisper.perform_all Whisper.mock cs w0)))
     ≤ 1)%nat.
Proof.
  apply (asr_never_two_live_contexts Whisper.mock _ w0).
  reflexivity.
Defined.

(** X2.  From a state whose [g_ctx] is null or points to a live context, no
    sequence of the three whisper entry points frees or uses a context that
    is not live, and [g_ctx] still is null or points to a live context
    afterwards. *)
Theorem asr_calls_never_touch_dead_context
    {Ω Pcm : Type} (W : Whisper.engine Ω Pcm)
    (cs : list (Whisper.call (Pcm := Pcm))) (s : Whisper.state Ω) :
  Whisper.ptr_live s = true →
  Whisper.ptr_live (final (Whisper.perform_all W cs s)) = true
  ∧ Whisper.fault (final (Whisper.perform_all W cs s)) = Whisper.fault s.
Proof. apply WhisperFacts.perform_all_safe. Qed.

Lemma asr_calls_never_touch_dead_context_witness :
  let cs := [Whisper.nativeWhisperFree;
             Whisper.nativeWhisperTranscribe [] 0 "en";
             Whisper.nativeWhisperInit "ggml-base.bin" 2;
             Whisper.nativeWhisperFree;
             Whisper.nativeWhisperFree] in
  Whisper.ptr_live (final (Whisper.perform_all Whisper.mock cs w1)) = true
  ∧ Whisper.fault (final (Whisper.perform_all Whisper.mock cs w1))
    = Whisper.fault w1.
Proof.
  apply (asr_calls_never_touch_dead_context Whisper.mock _ w1).
  reflexivity.
Defined.

(** X3.  Whatever its outcome, [whisper_bridge_transcribe] leaves [g_ctx],
    the thread count, the live contexts and the allocator as they were, and
    makes at most one engine pass: it never loads and never frees. *)
Theorem transcribe_moves_only_the_engine
    {Ω Pcm : Type} (W : Whisper.engine Ω Pcm) (pcm : Pcm) (n_samples : Z)
    (lang : string) (s : Whisper.state Ω) :
  let r := Whisper.whisper_bridge_transcribe W pcm n_samples lang s in
  Whisper.g_ctx (final r) = Whisper.g_ctx s
  ∧ Whisper.g_threads (final r) = Whisper.g_threads s
  ∧ Whisper.live (final r) = Whisper.live s
  ∧ Whisper.next (final r) = Whisper.next s
  ∧ (trace r = []
     ∨ ∃ h status,
         Whisper.g_ctx s = Some h
         ∧ (trace r
            = [Whisper.EFull h
                 (Whisper.full_params lang (Whisper.g_threads s))
                 n_samples status]
            ∨ trace r
              = [Whisper.EFull h
                   (Whisper.full_params lang (Whisper.g_threads s))
                   n_samples status;
                 Whisper.ELogE "whisper_full() failed"])).
Proof.
  intros r.
  destruct (WhisperMore.transcribe_frame W pcm n_samples lang s)
    as (H1 & H2 & H3 & H4).
  repeat split; try assumption.
  apply WhisperMore.transcribe_trace.
Qed.

(** X4.  [whisper_bridge_init] stores the thread count whether the load
    succeeds or not.  It returns true exactly when it leaves a live handle
    in [g_ctx], and then the next transcription runs the engine on that
    handle with that thread count, the caller's language, and the fixed
    greedy single-segment settings; when it returns false [g_ctx] is
    null. *)
Theorem whisper_init_binds_threads_and_handle
    {Ω Pcm : Type} (W : Whisper.engine Ω Pcm) (path : string) (threads : Z)
    (s : Whisper.state Ω) :
  let r := Whisper.whisper_bridge_init W path threads s in
  Whisper.g_threads (final r) = threads
  ∧ (value r = true →
     ∃ h, Whisper.g_ctx (final r) = Some h
          ∧ h ∈ Whisper.live (final r)
          ∧ ∀ (pcm : Pcm) n_samples lang, ∃ status rest,
              trace (Whisper.whisper_bridge_transcribe W pcm n_samples lang
                       (final r))
              = Whisper.EFull h (Whisper.full_params lang threads)
                  n_samples status :: rest)
  ∧ (value r = false → Whisper.g_ctx (final r) = None).
Proof.
  intros r.
  destruct (WhisperMore.init_result W path threads s) as (Ht & Hok & Hko).
  fold r in Ht, Hok, Hko.
  split; [exact Ht|]. split; [|exact Hko].
  intros Hv. destruct (Hok Hv) as (h & Hh & Hl).
  exists h. split; [exact Hh|]. split; [exact Hl|].
  intros pcm n_samples lang.
  destruct (WhisperFacts.transcribe_starts W pcm n_samples lang (final r) h Hh)
    as (status & rest & Htr).
  exists status, rest. now rewrite Htr, Ht.
Qed.

Lemma whisper_init_binds_threads_and_handle_witness :
  let r := Whisper.whisper_bridge_init Whisper.mock "ggml-base.bin" 6 w1 in
  ∃ h, Whisper.g_ctx (final r) = Some h
       ∧ h ∈ Whisper.live (final r)
       ∧ ∀ (pcm : list Z) n_samples lang, ∃ status rest,
           trace (Whisper.whisper_bridge_transcribe Whisper.mock pcm
                    n_samples lang (final r))
           = Whisper.EFull h (Whisper.full_params lang 6) n_samples status
             :: rest.
Proof.
  apply (proj1 (proj2 (whisper_init_binds_threads_and_handle Whisper.mock
                         "ggml-base.bin" 6 w1))).
  reflexivity.
Defined.

(** X5.  A [whisper_bridge_init] that succeeds on a manager holding a live
    handle frees that handle, then loads; afterwards the old handle is not
    live, [g_ctx] points to the new context, and the live contexts are the
    old ones without the old handle, plus the new one. *)
Theorem whisper_reinit_replaces_handle
    {Ω Pcm : Type} (W : Whisper.engine Ω Pcm) (path : string) (threads : Z)
    (s : Whisper.state Ω) (h : handle) :
  Whisper.g_ctx s = Some h →
  h ∈ Whisper.live s →
  Whisper.next_fresh s = true →
  let r := Whisper.whisper_bridge_init W path threads s in
  value r = true →
  trace r = [Whisper.EFree h;
             Whisper.EInit path false (Some (Whisper.next s));
             Whisper.ELogI ("Whisper model loaded OK from " ++ path)]
  ∧ Whisper.g_ctx (final r) = Some (Whisper.next s)
  ∧ (h ∉ Whisper.live (final r))
  ∧ Whisper.live (final r)
    = {[Whisper.next s]} ∪ (Whisper.live s ∖ {[h]}).
Proof.
  intros Hh Hin Hfresh r Hv.
  destruct (WhisperFacts.reinit_releases_prior W path threads s h Hh Hv)
    as [Hg Hl].
  fold r in Hg, Hl.
  pose proof (WhisperFacts.init_trace_live W path threads s h Hh) as Htr.
  cbn zeta in Htr. fold r in Htr. rewrite Hg, Hv in Htr.
  repeat split; try assumption.
  now apply (WhisperFacts.reinit_prior_dead W path threads s h).
Qed.

Lemma whisper_reinit_replaces_handle_witness :
  let r := Whisper.whisper_bridge_init Whisper.mock "ggml-base.bin" 4 w1 in
  trace r = [Whisper.EFree 1%positive;
             Whisper.EInit "ggml-base.bin" false (Some (Whisper.next w1));
             Whisper.ELogI ("Whisper model loaded OK from " ++ "ggml-base.bin")]
  ∧ Whisper.g_ctx (final r) = Some (Whisper.next w1)
  ∧ (1%positive ∉ Whisper.live (final r))
  ∧ Whisper.live (final r)
    = {[Whisper.next w1]} ∪ (Whisper.live w1 ∖ {[1%positive]}).
Proof.
  apply (whisper_reinit_replaces_handle Whisper.mock "ggml-base.bin" 4 w1
           1%positive).
  - reflexivity.
  - exact (bool_decide_eq_true_1 (1%positive ∈ Whisper.live w1) eq_refl).
  - reflexivity.
  - reflexivity.
Defined.

(** X6.  After an engine pass that succeeds, the text returned is empty when
    the engine reports no segments (a count of zero or below) and when every
    segment text is null. *)
Theorem transcribe_of_no_segments_is_empty
    {Ω Pcm : Type} (W : Whisper.engine Ω Pcm) (pcm : Pcm) (n_samples : Z)
    (lang : string) (s : Whisper.state Ω) (h : handle) :
  Whisper.g_ctx s = Some h →
  let run := Whisper.eng_full W h
               (Whisper.full_params lang (Whisper.g_threads s)) pcm n_samples
               (Whisper.eng s) in
  fst run = 0 →
  Whisper.eng_n_segments W (snd run) h ≤ 0
  ∨ (∀ i, 0 ≤ i < Whisper.eng_n_segments W (snd run) h →
          Whisper.eng_segment_text W (snd run) h i = None) →
  Whisper.whisper_bridge_transcribe W pcm n_samples lang s
  = (EmptyString,
     Whisper.after_full W h (Whisper.full_params lang (Whisper.g_threads s))
       pcm n_samples s,
     [Whisper.EFull h (Whisper.full_params lang (Whisper.g_threads s))
        n_samples 0]).
Proof.
  intros Hh run Hst Hempty.
  rewrite (WhisperFacts.transcribe_passed W _ _ _ _ _ Hh Hst).
  fold run. now rewrite (WhisperMore.transcript_empty W _ _ Hempty).
Qed.

Lemma transcribe_of_no_segments_is_empty_witness :
  Whisper.whisper_bridge_transcribe Whisper.silent [0; 0] 2 "en" w1
  = (EmptyString,
     Whisper.after_full Whisper.silent 1%positive
       (Whisper.full_params "en" (Whisper.g_threads w1)) [0; 0] 2 w1,
     [Whisper.EFull 1%positive
        (Whisper.full_params "en" (Whisper.g_threads w1)) 2 0]).
Proof.
  apply (transcribe_of_no_segments_is_empty Whisper.silent [0; 0] 2 "en" w1
           1%positive).
  - reflexivity.
  - reflexivity.
  - left. cbn. lia.
Defined.

(** X7.  For both managers and from any state, a run call right after a free
    does nothing: the transcription is the empty string, the translation
    invokes no callback, no native call is made and the state stays as the
    free left it. *)
Theorem run_after_free_is_noop
    {Ω Pcm Ω' : Type} (W : Whisper.engine Ω Pcm) (L : Llama.engine Ω')
    (pcm : Pcm) (n_samples : Z) (lang prompt : string)
    (ws : Whisper.state Ω) (ls : Llama.state Ω') :
  let ws' := final (Whisper.whisper_bridge_free W ws) in
  let ls' := final (Llama.llama_bridge_free L ls) in
  Whisper.whisper_bridge_transcribe W pcm n_samples lang ws'
    = (EmptyString, ws', [])
  ∧ Llama.llama_bridge_translate L prompt ls' = (tt, ls', []).
Proof.
  intros ws' ls'. split.
  - apply WhisperFacts.transcribe_null, WhisperMore.whisper_free_clears.
  - apply LlamaFacts.translate_null. left.
    apply (LlamaFacts.free_clears L ls).
Qed.

(** X8.  When [llama_bridge_init] returns false, for either reason,
    [g_model] is null afterwards, so every translation that follows is a
    no-op with zero callback invocations, even if [g_ctx] still holds a
    context of an earlier init. *)
Theorem failed_llama_init_disables_translate
    {Ω : Type} (L : Llama.engine Ω) (path : string) (threads size : Z)
    (s : Llama.state Ω) :
  let r := Llama.llama_bridge_init L path threads size s in
  value r = false →
  Llama.g_model (final r) = None
  ∧ ∀ prompt,
      Llama.llama_bridge_translate L prompt (final r) = (tt, final r, []).
Proof.
  intros r Hv.
  pose proof (LlamaMore.init_failed_no_model L path threads size s Hv) as Hm.
  fold r in Hm. split; [exact Hm|].
  intros prompt. apply LlamaFacts.translate_null. now right.
Qed.

Lemma failed_llama_init_disables_translate_witness :
  let r := Llama.llama_bridge_init Llama.mock "missing.gguf" 4 2048 l1 in
  Llama.g_model (final r) = None
  ∧ ∀ prompt,
      Llama.llama_bridge_translate Llama.mock prompt (final r)
      = (tt, final r, []).
Proof.
  apply (failed_llama_init_disables_translate Llama.mock "missing.gguf" 4
           2048 l1).
  reflexivity.
Defined.

(** X9.  When the model file does not load, [llama_bridge_init] makes that
    one native call and no other: it creates no context and frees nothing.
    It returns false with [g_model] null; the thread count is already the
    new one; [g_ctx], the live models and the live contexts are as they
    were. *)
Theorem llama_load_failure_stops_at_the_load
    {Ω : Type} (L : Llama.engine Ω) (path : string) (threads size : Z)
    (s : Llama.state Ω) :
  fst (Llama.eng_model_load L path 0 (Llama.eng s)) = false →
  let r := Llama.llama_bridge_init L path threads size s in
  value r = false
  ∧ trace r = [Llama.EModelLoad path 0 None;
               Llama.ELogE ("Failed to load: " ++ path)]
  ∧ Llama.g_threads (final r) = threads
  ∧ Llama.g_model (final r) = None
  ∧ Llama.g_ctx (final r) = Llama.g_ctx s
  ∧ Llama.models (final r) = Llama.models s
  ∧ Llama.ctxs (final r) = Llama.ctxs s.
Proof.
  intros H r.
  destruct (LlamaFacts.init_load_failed L path threads size s H)
    as (Hv & Htr & Hm & Hc & Hms & Hcs & _).
  fold r in Hv, Htr, Hm, Hc, Hms, Hcs.
  repeat split; try assumption.
  apply LlamaMore.init_sets_threads.
Qed.

Lemma llama_load_failure_stops_at_the_load_witness :
  let r := Llama.llama_bridge_init Llama.mock "missing.gguf" 8 2048 l1 in
  value r = false
  ∧ trace r = [Llama.EModelLoad "missing.gguf" 0 None;
               Llama.ELogE ("Failed to load: " ++ "missing.gguf")]
  ∧ Llama.g_threads (final r) = 8
  ∧ Llama.g_model (final r) = None
  ∧ Llama.g_ctx (final r) = Llama.g_ctx l1
  ∧ Llama.models (final r) = Llama.models l1
  ∧ Llama.ctxs (final r) = Llama.ctxs l1.
Proof.
  apply (llama_load_failure_stops_at_the_load Llama.mock "missing.gguf" 8
           2048 l1).
  reflexivity.
Defined.



(** X11.  With both statics set, [llama_bridge_free] frees the context
    first and the model second, and nothing else; neither is live
    afterwards, and the sampler chains are not touched. *)
Theorem llama_free_releases_context_then_model
    {Ω : Type} (L : Llama.engine Ω) (s : Llama.state Ω) (c m : handle) :
  Llama.g_ctx s = Some c →
  Llama.g_model s = Some m →
  let r := Llama.llama_bridge_free L s in
  trace r = [Llama.EFree c; Llama.EModelFree m]
  ∧ (c ∉ Llama.ctxs (final r))
  ∧ (m ∉ Llama.models (final r))
  ∧ Llama.ctxs (final r) = Llama.ctxs s ∖ {[c]}
  ∧ Llama.models (final r) = Llama.models s ∖ {[m]}
  ∧ Llama.samplers (final r) = Llama.samplers s.
Proof.
  intros Hc Hm r.
  destruct (LlamaMore.free_both L s c m Hc Hm) as (Htr & Hcs & Hms & Hss).
  fold r in Htr, Hcs, Hms, Hss.
  repeat split; try assumption.
  - rewrite Hcs. intros Hin. apply elem_of_difference in Hin as [_ Hin].
    apply Hin. now apply elem_of_singleton.
  - rewrite Hms. intros Hin. apply elem_of_difference in Hin as [_ Hin].
    apply Hin. now apply elem_of_singleton.
Qed.

Lemma llama_free_releases_context_then_model_witness :
  let r := Llama.llama_bridge_free Llama.mock l1 in
  trace r = [Llama.EFree 2%positive; Llama.EModelFree 1%positive]
  ∧ (2%positive ∉ Llama.ctxs (final r))
  ∧ (1%positive ∉ Llama.models (final r))
  ∧ Llama.ctxs (final r) = Llama.ctxs l1 ∖ {[2%positive]}
  ∧ Llama.models (final r) = Llama.models l1 ∖ {[1%positive]}
  ∧ Llama.samplers (final r) = Llama.samplers l1.
Proof.
  apply (llama_free_releases_context_then_model Llama.mock l1 2%positive
           1%positive).
  - reflexivity.
  - reflexivity.
Defined.

(** X12.  From a state whose statics are null or point to live objects, any
    sequence of the three llama entry points leaves the statics null or
    pointing to live objects: [g_model] and [g_ctx] never dangle, also
    across failed and repeated inits. *)
Theorem llama_statics_never_dangle
    {Ω : Type} (L : Llama.engine Ω) (cs : list Llama.call)
    (s : Llama.state Ω) :
  Llama.ptrs_live s = true →
  Llama.ptrs_live (final (Llama.perform_all L cs s)) = true.
Proof. apply LlamaMore.perform_all_ptrs_live. Qed.

Lemma llama_statics_never_dangle_witness :
  let cs := [Llama.nativeLlamaInit "model.gguf" 4 2048;
             Llama.nativeLlamaTranslate "abc";
             Llama.nativeLlamaInit "missing.gguf" 4 2048;
             Llama.nativeLlamaInit "model.gguf" 4 0;
             Llama.nativeLlamaFree;
             Llama.nativeLlamaTranslate "abc"] in
  Llama.ptrs_live (final (Llama.perform_all Llama.mock cs l0)) = true.
Proof.
  apply (llama_statics_never_dangle Llama.mock _ l0).
  reflexivity.
Defined.

(** X13.  A translation whose statics point to a live context and a live
    model never uses a dead object: the fault flag is as it was, whichever
    way the call ends, provided the first tokenizer count is not [INT_MIN]
    (whose negation is not defined). *)
Theorem translate_never_touches_dead_objects
    {Ω : Type} (L : Llama.engine Ω) (prompt : string) (s : Llama.state Ω)
    (c m : handle) :
  Llama.g_ctx s = Some c →
  Llama.g_model s = Some m →
  Llama.ptrs_live s = true →
  fst (Llama.eng_tokenize L
         (Llama.eng_memory_clear L c true (Llama.eng s)) m prompt
         (Llama.prompt_len prompt) (Llama.first_buffer prompt)
         (Llama.capacity (Llama.first_buffer prompt)) true true) ≠ INT_MIN →
  Llama.fault (final (Llama.llama_bridge_translate L prompt s))
  = Llama.fault s.
Proof.
  intros Hc Hm Hl Hmin.
  unfold Llama.ptrs_live in Hl. rewrite Hc, Hm in Hl.
  apply andb_true_iff in Hl as [Hcl Hml].
  apply bool_decide_eq_true_1 in Hcl, Hml.
  now apply (LlamaMore.translate_safe L prompt s c m).
Qed.

Lemma translate_never_touches_dead_objects_witness :
  Llama.fault (final (Llama.llama_bridge_translate Llama.mock "abc" l1))
  = Llama.fault l1.
Proof.
  apply (translate_never_touches_dead_objects Llama.mock "abc" l1 2%positive
           1%positive).
  - reflexivity.
  - reflexivity.
  - reflexivity.
  - vm_compute. discriminate.
Defined.

(** X14.  In every translation the callback runs exactly once for each
    sampled token whose rendering has a positive length, and for nothing
    else: a token that renders to nothing, or whose rendering fails, is
    decoded but not delivered. *)
Theorem callback_once_per_rendered_token
    {Ω : Type} (L : Llama.engine Ω) (prompt : string) (s : Llama.state Ω) :
  let tr := trace (Llama.llama_bridge_translate L prompt s) in
  length (Llama.fragments tr) = Llama.rendered_nonempty tr.
Proof. apply LlamaMore.translate_rendered. Qed.

(** X15.  A translation logs at most one error, and only "Tokenization
    failed" or "Prefill failed"; the log line is the last thing the call
    does, and before it the call created no sampler chain, drew no token
    and invoked no callback. *)
Theorem logged_translate_did_not_generate
    {Ω : Type} (L : Llama.engine Ω) (prompt : string) (s : Llama.state Ω)
    (msg : string) :
  let tr := trace (Llama.llama_bridge_translate L prompt s) in
  In (Llama.ELogE msg) tr →
  (msg = "Tokenization failed"%string ∨ msg = "Prefill failed"%string)
  ∧ ∃ before,
      tr = before ++ [Llama.ELogE msg]
      ∧ (∀ msg', ¬ In (Llama.ELogE msg') before)
      ∧ (∀ smpl, ¬ In (Llama.ESamplerChainInit smpl) before)
      ∧ Llama.sample_calls tr = 0%nat
      ∧ Llama.fragments tr = [].
Proof.
  intros tr Hin. subst tr.
  destruct (LlamaMore.translate_shape L prompt s)
    as [Hnil | (pre & tail & Htr & Hpre & Htail)].
  { rewrite Hnil in Hin. destruct Hin. }
  rewrite Htr in Hin |- *.
  pose proof (LlamaMore.prelude_is_quiet pre Hpre) as Hq.
  apply in_app_iff in Hin as [Hin | Hin];
    [now apply (LlamaMore.prelude_no_log _ msg) in Hpre|].
  destruct Htail as [-> | [-> | [(c & batch & status & _ & ->)
                                | (c & batch & body & Hb & ->)]]].
  - destruct Hin.
  - destruct Hin as [Hin | []]. injection Hin as <-.
    split; [now left|]. exists pre. split; [reflexivity|].
    split; [|split; [|split]].
    + intros msg'. now apply LlamaMore.prelude_no_log.
    + intros smpl. now apply LlamaFacts.quiet_no_init.
    + rewrite LlamaFacts.sample_calls_app, (LlamaFacts.quiet_samples _ Hq).
      reflexivity.
    + rewrite LlamaFacts.fragments_app, (LlamaFacts.quiet_fragments _ Hq).
      reflexivity.
  - destruct Hin as [Hin | [Hin | []]]; [discriminate Hin|].
    injection Hin as <-. split; [now right|].
    exists (pre ++ [Llama.EDecode c batch status]).
    split; [now rewrite <- app_assoc|].
    assert (Hq' : Forall (λ e, Llama.quiet_event e = true)
                    (pre ++ [Llama.EDecode c batch status])).
    { apply Forall_app. split; [exact Hq | repeat constructor]. }
    split; [|split; [|split]].
    + intros msg' Hin. apply in_app_iff in Hin as [Hin | Hin].
      * now apply (LlamaMore.prelude_no_log _ msg') in Hpre.
      * destruct Hin as [Hin | []]. discriminate Hin.
    + intros smpl. now apply LlamaFacts.quiet_no_init.
    + rewrite LlamaFacts.sample_calls_app, (LlamaFacts.quiet_samples _ Hq).
      reflexivity.
    + rewrite LlamaFacts.fragments_app, (LlamaFacts.quiet_fragments _ Hq).
      reflexivity.
  - exfalso. destruct Hin as [Hin | Hin]; [discriminate Hin|].
    rewrite !in_app_iff in Hin. destruct Hin as [Hin | [Hin | Hin]].
    + cbn in Hin. intuition discriminate.
    + now apply (LlamaMore.loop_no_log _ _ _ _ msg) in Hb.
    + destruct Hin as [Hin | []]. discriminate Hin.
Qed.

Lemma logged_translate_did_not_generate_witness :
  let tr := trace (Llama.llama_bridge_translate Llama.mock "ab" l1) in
  ("Prefill failed"%string = "Tokenization failed"%string
   ∨ "Prefill failed"%string = "Prefill failed"%string)
  ∧ ∃ before,
      tr = before ++ [Llama.ELogE "Prefill failed"]
      ∧ (∀ msg', ¬ In (Llama.ELogE msg') before)
      ∧ (∀ smpl, ¬ In (Llama.ESamplerChainInit smpl) before)
      ∧ Llama.sample_calls tr = 0%nat
      ∧ Llama.fragments tr = [].
Proof.
  apply (logged_translate_did_not_generate Llama.mock "ab" l1
           "Prefill failed").
  vm_compute. right. right. right. left. reflexivity.
Defined.

(** X16.  With both statics set, when the first tokenizer call answers a
    count [n1] that is not negative, the prompt-sized buffer (its length
    plus 64 tokens) was enough and the tokenizer is called that one time
    only.  A count of zero is logged as a tokenization failure and ends the
    call; a positive count is followed at once by the prefill decode, on a
    batch of exactly [n1] tokens: the first [n1] tokens the tokenizer
    wrote. *)
Theorem translate_tokenizes_once_when_buffer_fits
    {Ω : Type} (L : Llama.engine Ω) (prompt : string) (s : Llama.state Ω)
    (c m : handle) (n1 : Z) (toks1 : list Llama.llama_token) :
  Llama.g_ctx s = Some c →
  Llama.g_model s = Some m →
  let ω := Llama.eng_memory_clear L c true (Llama.eng s) in
  let len := Llama.prompt_len prompt in
  let cap1 := Llama.capacity (Llama.first_buffer prompt) in
  Llama.eng_tokenize L ω m prompt len (Llama.first_buffer prompt) cap1
    true true = (n1, toks1) →
  0 ≤ n1 →
  let batch :=
    Llama.llama_batch_get_one (Llama.resize (Z.to_nat n1) toks1) n1 in
  let r := Llama.llama_bridge_translate L prompt s in
  length (Llama.first_buffer prompt) = (String.length prompt + 64)%nat
  ∧ Llama.tokenize_calls (trace r) = 1%nat
  ∧ (n1 = 0 →
     trace r = [Llama.EMemoryClear c true;
                Llama.ETokenize prompt len cap1 true true 0;
                Llama.ELogE "Tokenization failed"])
  ∧ (0 < n1 →
     length batch = Z.to_nat n1
     ∧ ((Z.to_nat n1 ≤ length toks1)%nat →
        batch = firstn (Z.to_nat n1) toks1)
     ∧ ∃ status rest,
         trace r = [Llama.EMemoryClear c true;
                    Llama.ETokenize prompt len cap1 true true n1;
                    Llama.EDecode c batch status] ++ rest).
Proof.
  intros Hc Hm ω len cap1 Htok Hn1 batch r.
  pose proof (LlamaFacts.translate_live L prompt s c m Hc Hm) as H.
  cbn zeta in H. destruct H as (Hfit & _ & _).
  set (s1 := final (Llama.llama_memory_clear L c true s)) in *.
  set (t1 := Llama.llama_tokenize L m prompt (Llama.prompt_len prompt)
               (Llama.first_buffer prompt)
               (Llama.capacity (Llama.first_buffer prompt)) true true s1) in *.
  assert (Hv1 : value t1 = (n1, toks1)) by exact Htok.
  rewrite Hv1 in Hfit. cbn [fst snd] in Hfit.
  destruct (Hfit Hn1) as [Htr _]. clear Hfit. fold r in Htr.
  assert (Ht1 : trace t1 = [Llama.ETokenize prompt len cap1 true true n1]).
  { unfold t1. rewrite LlamaFacts.trace_tokenize. fold t1. now rewrite Hv1. }
  rewrite Ht1 in Htr. cbn [app] in Htr.
  split; [apply repeat_length|]. split; [|split].
  - rewrite Htr. cbn. now rewrite LlamaFacts.tokens_no_tokenize.
  - intros ->. rewrite Htr.
    now rewrite (LlamaFacts.tokens_failed L c m 0 _ _ (Z.le_refl 0)).
  - intros Hpos. split; [apply LlamaMore.batch_length|].
    split; [apply LlamaMore.batch_tokens|].
    rewrite Htr.
    destruct (LlamaFacts.translate_tokens_cases L c m n1 toks1 (final t1))
      as [[Hle _] | [(_ & status & _ & -> & _) | (_ & body & _ & -> & _)]].
    + lia.
    + now eexists status, _.
    + now eexists 0, _.
Qed.

Lemma translate_tokenizes_once_when_buffer_fits_witness :
  let batch :=
    Llama.llama_batch_get_one (Llama.resize (Z.to_nat 3) [7; 7; 7]) 3 in
  let r := Llama.llama_bridge_translate Llama.mock "abc" l1 in
  length (Llama.first_buffer "abc") = (String.length "abc" + 64)%nat
  ∧ Llama.tokenize_calls (trace r) = 1%nat
  ∧ (3 = 0 →
     trace r = [Llama.EMemoryClear 2%positive true;
                Llama.ETokenize "abc" 3 67 true true 0;
                Llama.ELogE "Tokenization failed"])
  ∧ (0 < 3 →
     length batch = Z.to_nat 3
     ∧ ((Z.to_nat 3 ≤ length [7; 7; 7])%nat →
        batch = firstn (Z.to_nat 3) [7; 7; 7])
     ∧ ∃ status rest,
         trace r = [Llama.EMemoryClear 2%positive true;
                    Llama.ETokenize "abc" 3 67 true true 3;
                    Llama.EDecode 2%positive batch status] ++ rest).
Proof.
  apply (translate_tokenizes_once_when_buffer_fits Llama.mock "abc" l1
           2%positive 1%positive 3 [7; 7; 7]).
  - reflexivity.
  - reflexivity.
  - reflexivity.
  - lia.
Defined.

(** X17.  A translation creates a sampler chain only right after a prefill
    decode that succeeded.  The chain then gets exactly three stages, in
    this order: top-p (0.90, keeping at least 1), temperature 0.60, and the
    seeded draw; the loop runs on that chain, and the chain is freed last.
    Before the prefill the call only cleared the memory and tokenized. *)
Theorem sampler_chain_has_three_fixed_stages
    {Ω : Type} (L : Llama.engine Ω) (prompt : string) (s : Llama.state Ω)
    (smpl : handle) :
  let tr := trace (Llama.llama_bridge_translate L prompt s) in
  In (Llama.ESamplerChainInit smpl) tr →
  ∃ pre c batch body,
    tr = pre
         ++ [Llama.EDecode c batch 0;
             Llama.ESamplerChainInit smpl;
             Llama.ESamplerChainAdd smpl (Llama.llama_sampler_init_top_p 90 1);
             Llama.ESamplerChainAdd smpl (Llama.llama_sampler_init_temp 60);
             Llama.ESamplerChainAdd smpl
               Llama.llama_sampler_init_dist_default_seed]
         ++ body ++ [Llama.ESamplerFree smpl]
    ∧ Forall (λ e, Llama.prelude_event e = true) pre
    ∧ Llama.loop_trace smpl c 512 body
    ∧ ∀ x stage, ¬ In (Llama.ESamplerChainAdd x stage) (pre ++ body).
Proof.
  intros tr Hin.
  destruct (LlamaMore.translate_sampler_life L prompt s smpl Hin)
    as (pre & c & batch & body & Htr & Hpre & Hb).
  fold tr in Htr. exists pre, c, batch, body.
  split; [exact Htr|]. split; [exact Hpre|]. split; [exact Hb|].
  intros x stage Hadd. apply in_app_iff in Hadd as [Hadd | Hadd].
  - now apply (LlamaMore.prelude_no_add _ x stage) in Hpre.
  - now apply (LlamaMore.loop_no_add _ _ _ _ x stage) in Hb.
Qed.

Lemma sampler_chain_has_three_fixed_stages_witness :
  let tr := trace (Llama.llama_bridge_translate Llama.mock "abc" l1) in
  ∃ pre c batch body,
    tr = pre
         ++ [Llama.EDecode c batch 0;
             Llama.ESamplerChainInit 3%positive;
             Llama.ESamplerChainAdd 3%positive
               (Llama.llama_sampler_init_top_p 90 1);
             Llama.ESamplerChainAdd 3%positive
               (Llama.llama_sampler_init_temp 60);
             Llama.ESamplerChainAdd 3%positive
               Llama.llama_sampler_init_dist_default_seed]
         ++ body ++ [Llama.ESamplerFree 3%positive]
    ∧ Forall (λ e, Llama.prelude_event e = true) pre
    ∧ Llama.loop_trace 3%positive c 512 body
    ∧ ∀ x stage, ¬ In (Llama.ESamplerChainAdd x stage) (pre ++ body).
Proof.
  apply (sampler_chain_has_three_fixed_stages Llama.mock "abc" l1 3%positive).
  vm_compute. right. right. right. left. reflexivity.
Defined.

(** X18.  In every translation each draw from the sampler comes after a
    decode of its own: the prefill before the first draw, the decode of the
    token drawn before for each later one.  So a call decodes as often as it
    draws, or once more, and at most 513 times. *)
Theorem every_draw_follows_a_decode
    {Ω : Type} (L : Llama.engine Ω) (prompt : string) (s : Llama.state Ω) :
  let tr := trace (Llama.llama_bridge_translate L prompt s) in
  (Llama.sample_calls tr ≤ Llama.decode_calls tr)%nat
  ∧ (Llama.decode_calls tr ≤ Datatypes.S (Llama.sample_calls tr))%nat
  ∧ (Llama.decode_calls tr ≤ 513)%nat.
Proof.
  intros tr. subst tr.
  destruct (LlamaMore.translate_shape L prompt s)
    as [-> | (pre & tail & -> & Hpre & Htail)]; [cbn; lia|].
  rewrite LlamaFacts.sample_calls_app, LlamaMore.decode_calls_app.
  rewrite (LlamaMore.prelude_decodes _ Hpre).
  rewrite (LlamaFacts.quiet_samples _ (LlamaMore.prelude_is_quiet _ Hpre)).
  destruct Htail as [-> | [-> | [(c & batch & status & _ & ->)
                                | (c & batch & body & Hb & ->)]]];
    try (cbn; lia).
  change (Llama.EDecode c batch 0 :: Llama.sampler_setup (Llama.next s)
          ++ body ++ [Llama.ESamplerFree (Llama.next s)])
    with ((Llama.EDecode c batch 0 :: Llama.sampler_setup (Llama.next s))
          ++ body ++ [Llama.ESamplerFree (Llama.next s)]).
  rewrite !LlamaFacts.sample_calls_app, !LlamaMore.decode_calls_app.
  pose proof (LlamaMore.loop_decodes _ _ _ _ Hb).
  pose proof (LlamaFacts.loop_samples_le _ _ _ _ Hb).
  cbn. lia.
Qed.

(** X19.  The capability summary always fits its 256-byte buffer: the
    text returned is the whole formatted line, between 36 and 40 characters
    long, never cut short.  The line tells the four flags apart: two
    summaries are equal only when all four answers agree. *)
Theorem backend_info_is_never_truncated
    (sme i8mm sme' i8mm' : Z) (neon bf16 neon' bf16' : bool) :
  let line (a b c d : bool) :=
    ("SME=" ++ Jni.yes_no a ++ " | NEON=" ++ Jni.yes_no b
     ++ " | I8MM=" ++ Jni.yes_no c ++ " | BF16=" ++ Jni.yes_no d)%string in
  let info := Jni.nativeGetBackendInfo sme i8mm neon bf16 in
  info = line (negb (sme =? 0)) neon (negb (i8mm =? 0)) bf16
  ∧ (36 ≤ String.length info ≤ 40)%nat
  ∧ (info = Jni.nativeGetBackendInfo sme' i8mm' neon' bf16' →
     (sme = 0 ↔ sme' = 0) ∧ (i8mm = 0 ↔ i8mm' = 0)
     ∧ neon = neon' ∧ bf16 = bf16').
Proof.
  intros line info. subst info. unfold Jni.nativeGetBackendInfo.
  destruct (Z.eqb_spec sme 0) as [Ha | Ha],
    (Z.eqb_spec i8mm 0) as [Hb | Hb], neon, bf16;
    (split; [vm_compute; reflexivity|]);
    (split; [vm_compute; lia|]);
    destruct (Z.eqb_spec sme' 0) as [Ha' | Ha'],
      (Z.eqb_spec i8mm' 0) as [Hb' | Hb'], neon', bf16';
    intros H; vm_compute in H; try discriminate H;
    repeat split; intros; first [assumption | contradiction].
Qed.
